(** * Coffee-order interpreter: a shallow embedding of [src/bot.ts]

    The development follows the two services of the bot, [messageParser]
    (similarity scoring, lexicon matching, order splitting, item
    interpretation, order parsing) and [orderCalculator] (rounding, tax,
    order identifiers, order assembly).

    Modelling conventions.
    - A JavaScript string is a [string]: a sequence of code units, each in
      the range 0..255 (the Latin-1 part of UTF-16).  [toLowerCase], [trim]
      and the character classes [\s] and [\d] are given on that range.
    - A JavaScript number is an IEEE 754 binary64 double.  The module
      [Binary64] gives the item interpreter, the order parser and the order
      calculator on doubles (the kernel's primitive floats), and the handler
      of text messages runs on it.  The modules [messageParser] and
      [orderCalculator] give the same code on exact numbers, a score, a
      price or an amount being a rational ([Q]) and a quantity an integer
      ([Z]): they say what the text of an order denotes, and the figures on
      doubles are compared with theirs.  Counters, lengths and matrix cells
      are [nat]; clock values are [N].
    - An object literal used as a dictionary is an association list in
      declaration order, the order [Object.entries] enumerates.
    - A reference to a dictionary value is the pair of its key and the
      record stored there: two references are the same object exactly when
      their keys agree, since every key owns its own object literal. *)

From Stdlib Require Import Bool Arith ZArith NArith QArith Qround Qabs Qminmax.
From Stdlib Require Import List Ascii String DecimalString Lia Lqa.
From Stdlib Require PrimFloat FloatOps SpecFloat FloatAxioms Uint63.
Import ListNotations.

Open Scope string_scope.
Open Scope list_scope.

(** ** JavaScript string primitives *)

Module JS.

(** [\s] of a regular expression and the set [trim] strips, below 256. *)
Definition isWhiteSpace (c : ascii) : bool :=
  let n := N_of_ascii c in
  ((9 <=? n) && (n <=? 13) || (n =? 32) || (n =? 160))%N.

(** [\d]. *)
Definition isDigit (c : ascii) : bool :=
  let n := N_of_ascii c in ((48 <=? n) && (n <=? 57))%N.

Definition digitValue (c : ascii) : Z := Z.of_N (N_of_ascii c) - 48.

Definition lowerChar (c : ascii) : ascii :=
  let n := N_of_ascii c in
  if ((65 <=? n) && (n <=? 90))%N then ascii_of_N (n + 32)
  else if ((192 <=? n) && (n <=? 222) && negb (n =? 215))%N
       then ascii_of_N (n + 32)
       else c.

Fixpoint toLowerCase (s : string) : string :=
  match s with
  | EmptyString => EmptyString
  | String c s' => String (lowerChar c) (toLowerCase s')
  end.

(** [s.includes(sub)]. *)
Fixpoint includes (s sub : string) : bool :=
  String.prefix sub s
  || match s with
     | EmptyString => false
     | String _ s' => includes s' sub
     end.

Fixpoint trimStart (s : string) : string :=
  match s with
  | EmptyString => EmptyString
  | String c s' => if isWhiteSpace c then trimStart s' else s
  end.

Fixpoint trimEnd (s : string) : string :=
  match s with
  | EmptyString => EmptyString
  | String c s' =>
      let t := trimEnd s' in
      if isWhiteSpace c && (t =? "") then "" else String c t
  end.

Definition trim (s : string) : string := trimEnd (trimStart s).

(** [s.split(sep)] for a non-empty string separator: the text is scanned
    left to right; where the separator starts, the piece collected so far
    is closed and the separator's characters are skipped ([skip] counts the
    ones still to drop). *)
Fixpoint split_go (sep : string) (skip : nat) (cur : string) (s : string)
  : list string :=
  match s with
  | EmptyString => [cur]
  | String c s' =>
      match skip with
      | S k => split_go sep k cur s'
      | O =>
          if String.prefix sep s
          then cur :: split_go sep (String.length sep - 1) "" s'
          else split_go sep 0 (cur ++ String c "") s'
      end
  end.

Definition split (s sep : string) : list string := split_go sep 0 "" s.

(** [s.split(/\s+/)]: a maximal run of white space is one separator. *)
Fixpoint splitWs_go (inRun : bool) (cur : string) (s : string) : list string :=
  match s with
  | EmptyString => [cur]
  | String c s' =>
      if isWhiteSpace c
      then if inRun then splitWs_go true "" s'
           else cur :: splitWs_go true "" s'
      else splitWs_go false (cur ++ String c "") s'
  end.

Definition splitWhitespace (s : string) : list string := splitWs_go false "" s.

(** The capture of [s.match(/^(\d+)/)]: the leading run of digits, when
    there is one. *)
Fixpoint leadingDigits (s : string) : string :=
  match s with
  | EmptyString => EmptyString
  | String c s' => if isDigit c then String c (leadingDigits s') else ""
  end.

Definition matchLeadingDigits (s : string) : option string :=
  match leadingDigits s with
  | EmptyString => None
  | ds => Some ds
  end.

Fixpoint parseInt_go (acc : Z) (ds : string) : Z :=
  match ds with
  | EmptyString => acc
  | String c ds' => parseInt_go (10 * acc + digitValue c) ds'
  end.

(** The integer a string of decimal digits writes: the mathematical value
    [parseInt] converts to a Number ([Binary64.parseInt]). *)
Definition parseInt (ds : string) : Z := parseInt_go 0 ds.

(** [s.slice(-k)]: the last [k] code units, the whole string when it has
    fewer. *)
Definition sliceLast (k : nat) (s : string) : string :=
  String.substring (String.length s - k) k s.

(** [n.toString()] for a non-negative integer. *)
Definition toStringN (n : N) : string := NilEmpty.string_of_uint (N.to_uint n).

(** [xs.join(sep)]. *)
Definition join (sep : string) (xs : list string) : string :=
  String.concat sep xs.

(** A [for ... of] loop whose body leaves at the first hit with [break]. *)
Fixpoint firstSome {A B : Type} (f : A -> option B) (xs : list A) : option B :=
  match xs with
  | [] => None
  | x :: xs' =>
      match f x with
      | Some y => Some y
      | None => firstSome f xs'
      end
  end.

(** Arrays that grow on assignment: [arr[i] = v] replaces a cell in range
    and appends at [i = arr.length]; further out the gap is filled with
    [hole]. *)
Definition arraySet {A : Type} (hole : A) (arr : list A) (i : nat) (v : A)
  : list A :=
  if (i <? List.length arr)%nat
  then firstn i arr ++ v :: skipn (S i) arr
  else arr ++ repeat hole (i - List.length arr) ++ [v].

(** [Math.round]: the nearest integer, a tie going toward plus infinity. *)
Definition Math_round (x : Q) : Z := Qfloor (x + (1 # 2)).

Definition Math_min3 (x y z : nat) : nat := Nat.min x (Nat.min y z).

End JS.

(** ** Data model ([src/types.ts] and the menu tables of [src/bot.ts])

    Field names are those of the source, except where two records would
    share one: [itemName] is [MenuItem.name], [customerKey] and
    [customerFirstName] are [Customer.id] and [Customer.name], [orderId] is
    [Order.id], [itemSuccess] and [itemError] are the [success] and [error]
    of an item result, and [parsedItems] is [ParsedOrder.items]. *)

(** An entry of a [sizes] or [milkOptions] list, and a value of the [sizes]
    and [milkTypes] dictionaries. *)
Record Modifier : Type := mkModifier {
  name : string;
  priceModifier : Q
}.

Record MenuItem : Type := mkMenuItem {
  id : string;
  itemName : string;
  basePrice : Q;
  sizes : list Modifier;
  milkOptions : list Modifier;
  aliases : list string
}.

Record OrderItem : Type := mkOrderItem {
  menuItem : MenuItem;
  quantity : Z;
  size : string;
  milkType : string;
  itemTotal : Q
}.

Record Customer : Type := mkCustomer {
  customerKey : string;
  customerFirstName : string;
  username : option string
}.

Record Order : Type := mkOrder {
  orderId : string;
  customerId : string;
  customerName : string;
  items : list OrderItem;
  subtotal : Q;
  tax : Q;
  total : Q;
  estimatedReady : N
}.

(** The result of interpreting one item: [{ success, item?, error? }]. *)
Record ItemResult : Type := mkItemResult {
  itemSuccess : bool;
  item : option OrderItem;
  itemError : option string
}.

(** [ParsedOrder]: [{ success, items?, error? }]. *)
Record ParsedOrder : Type := mkParsedOrder {
  success : bool;
  parsedItems : option (list OrderItem);
  error : option string
}.

(** What [findBestMatch] returns: [{ key, item, score }]. *)
Record Match (A : Type) : Type := mkMatch {
  matchKey : string;
  matchItem : A;
  score : Q
}.

Arguments mkMatch {A} _ _ _.
Arguments matchKey {A} _.
Arguments matchItem {A} _.
Arguments score {A} _.

(** ** The message parser

    The matcher, the splitter and the choice of menu item, size and milk
    deal in strings and scores only.  The quantity and the line total of an
    item are given here as the exact numbers the text denotes; the numbers
    the code computes are those of [Binary64.parseOrderItem]. *)

Module messageParser.

Import JS.

Definition standardSizes : list Modifier :=
  [ mkModifier "Small" (-0.50); mkModifier "Medium" 0; mkModifier "Large" 0.50 ].

Definition standardMilkOptions : list Modifier :=
  [ mkModifier "Whole Milk" 0; mkModifier "Oat Milk" 0.50;
    mkModifier "Almond Milk" 0.50 ].

Definition menuItems : list (string * MenuItem) :=
  [ ("cappuccino",
     mkMenuItem "cap1" "Cappuccino" 3.50 standardSizes standardMilkOptions
       ["cap"; "capp"; "cappucino"; "capuccino"]);
    ("latte",
     mkMenuItem "lat1" "Latte" 4.00 standardSizes standardMilkOptions
       ["lat"; "cafe latte"; "coffee latte"]) ].

Definition sizes : list (string * Modifier) :=
  [ ("small", mkModifier "Small" (-0.50));
    ("medium", mkModifier "Medium" 0);
    ("large", mkModifier "Large" 0.50);
    ("s", mkModifier "Small" (-0.50));
    ("m", mkModifier "Medium" 0);
    ("l", mkModifier "Large" 0.50);
    ("regular", mkModifier "Medium" 0);
    ("big", mkModifier "Large" 0.50);
    ("standard", mkModifier "Medium" 0) ].

Definition milkTypes : list (string * Modifier) :=
  [ ("whole milk", mkModifier "Whole Milk" 0);
    ("oat milk", mkModifier "Oat Milk" 0.50);
    ("almond milk", mkModifier "Almond Milk" 0.50);
    ("whole", mkModifier "Whole Milk" 0);
    ("oat", mkModifier "Oat Milk" 0.50);
    ("almond", mkModifier "Almond Milk" 0.50);
    ("regular milk", mkModifier "Whole Milk" 0);
    ("regular", mkModifier "Whole Milk" 0);
    ("normal milk", mkModifier "Whole Milk" 0);
    ("normal", mkModifier "Whole Milk" 0) ].

(** [dictionary[key]]: the reference stored under [key], when there is
    one. *)
Fixpoint lookup {A : Type} (key : string) (dictionary : list (string * A))
  : option (string * A) :=
  match dictionary with
  | [] => None
  | (k, v) :: rest => if (k =? key)%string then Some (k, v) else lookup key rest
  end.

(** *** Similarity scorer *)

Definition matrix : Type := list (list nat).

(** [matrix[i][j]]. *)
Definition cell (m : matrix) (i j : nat) : nat := nth j (nth i m []) 0%nat.

(** [matrix[i][j] = v]. *)
Definition setCell (m : matrix) (i j : nat) (v : nat) : matrix :=
  arraySet [] m i (arraySet 0%nat (nth i m []) j v).

(** [a[i]] on the code units of a string. *)
Definition charAt (a : list ascii) (i : nat) : ascii := nth i a Ascii.zero.

(** The body of the inner loop of the fill. *)
Definition fillCell (a b : list ascii) (i : nat) (m : matrix) (j : nat)
  : matrix :=
  let cost :=
    (if Ascii.eqb (charAt a (i - 1)) (charAt b (j - 1)) then 0 else 1)%nat in
  setCell m i j
    (Math_min3 (cell m (i - 1) j + 1)
               (cell m i (j - 1) + 1)
               (cell m (i - 1) (j - 1) + cost))%nat.

(** The three loops over the matrix, in the order of the source. *)
Definition levenshteinMatrix (a b : list ascii) : matrix :=
  let m0 := fold_left (fun m i => arraySet [] m i [i])
                      (seq 0 (S (List.length a))) [] in
  let m1 := fold_left (fun m j => setCell m 0 j j)
                      (seq 0 (S (List.length b))) m0 in
  fold_left (fun m i => fold_left (fillCell a b i) (seq 1 (List.length b)) m)
            (seq 1 (List.length a)) m1.

Definition ofNat (n : nat) : Q := inject_Z (Z.of_nat n).

Definition calculateSimilarity (str1 str2 : string) : Q :=
  let a := toLowerCase str1 in
  let b := toLowerCase str2 in
  if (a =? b)%string then 1
  else if includes a b || includes b a then 0.9
  else
    let la := list_ascii_of_string a in
    let lb := list_ascii_of_string b in
    let m := levenshteinMatrix la lb in
    let maxLength := Nat.max (List.length la) (List.length lb) in
    let distance := cell m (List.length la) (List.length lb) in
    1 - ofNat distance / ofNat maxLength.

(** *** Lexicon matcher *)

(** [score > bestScore]. *)
Definition Qgtb (x y : Q) : bool := negb (Qle_bool x y).

Section FindBestMatch.

Context {A : Type}.

(** The [aliases] field of a dictionary value: menu items have one, the
    size and milk modifiers have none. *)
Variable aliasesOf : A -> option (list string).

(** The state of the scan: [bestMatch] and [bestScore]. *)
Definition scan : Type := (option (Match A) * Q)%type.

Definition consider (term key : string) (it : A) (st : scan) (candidate : string)
  : scan :=
  let s := calculateSimilarity term candidate in
  if Qgtb s (snd st) then (Some (mkMatch key it s), s) else st.

Definition scanEntry (term : string) (st : scan) (entry : string * A) : scan :=
  let '(key, it) := entry in
  let st1 := consider term key it st key in
  match aliasesOf it with
  | Some als => fold_left (consider term key it) als st1
  | None => st1
  end.

Definition findBestMatch (term : string) (dictionary : list (string * A))
  (threshold : Q) : option (Match A) :=
  fst (fold_left (scanEntry term) dictionary (None, threshold)).

End FindBestMatch.

Definition defaultThreshold : Q := 0.7.

Definition menuAliases (m : MenuItem) : option (list string) := Some (aliases m).

Definition noAliases (m : Modifier) : option (list string) := None.

(** *** Order text splitter *)

Definition separators : list string := [","; " and "; ";"; "+"].

Definition nonEmpty (s : string) : bool := negb (s =? "")%string.

(** One round of the outer loop: every item is cut at [separator]. *)
Definition splitBy (separator : string) (texts : list string) : list string :=
  fold_left
    (fun newItems it =>
       if includes it separator
       then newItems ++ filter nonEmpty (map trim (split it separator))
       else newItems ++ [it])
    texts [].

Definition splitOrderItems (text : string) : list string :=
  fold_left (fun its separator => splitBy separator its) separators [text].

(** *** Item interpreter *)

Definition menuItemNotFound : string :=
  "Menu item not found. Available items: "
  ++ join ", " (map (fun e => itemName (snd e)) menuItems).

Definition failedToParseItem : string :=
  "Failed to parse this item. Please try a simpler format.".

Definition itemFailure (msg : string) : ItemResult :=
  mkItemResult false None (Some msg).

(** The first word that the lexicon matcher resolves in [dictionary];
    the result is the reference [match.item]. *)
Definition firstWordMatch (words : list string)
  (dictionary : list (string * Modifier)) : option (string * Modifier) :=
  firstSome
    (fun word =>
       match findBestMatch noAliases word dictionary defaultThreshold with
       | Some m => Some (matchKey m, matchItem m)
       | None => None
       end)
    words.

(** The first entry whose key the text contains. *)
Definition firstContained {A : Type} (lowerText : string)
  (dictionary : list (string * A)) : option (string * A) :=
  firstSome
    (fun e : string * A => if includes lowerText (fst e) then Some e else None)
    dictionary.

(** The quantity: the integer the leading run of digits writes, 1 when
    there is none. *)
Definition extractQuantity (lowerText : string) : Z :=
  match matchLeadingDigits lowerText with
  | Some digits => parseInt digits
  | None => 1%Z
  end.

(** The menu item: the first word of three characters or more that the
    matcher resolves; failing that, the first menu key the text contains. *)
Definition extractMenuItem (lowerText : string) (words : list string)
  : option MenuItem :=
  let fuzzy :=
    firstSome
      (fun word =>
         if (String.length word <? 3)%nat then None
         else match findBestMatch menuAliases word menuItems defaultThreshold with
              | Some m => Some (matchItem m)
              | None => None
              end)
      words in
  match fuzzy with
  | Some it => Some it
  | None => option_map snd (firstContained lowerText menuItems)
  end.

(** The size: the first word the matcher resolves, [sizes['medium']]
    otherwise. *)
Definition extractSize (words : list string) : option (string * Modifier) :=
  match firstWordMatch words sizes with
  | Some r => Some r
  | None => lookup "medium" sizes
  end.

(** The milk: the first milk key the text contains; while the variable
    still holds the very object [milkTypes['whole milk']], the first word
    the matcher resolves replaces it. *)
Definition extractMilkType (lowerText : string) (words : list string)
  : option (string * Modifier) :=
  let wholeMilk := lookup "whole milk" milkTypes in
  let milk0 :=
    match firstContained lowerText milkTypes with
    | Some r => Some r
    | None => wholeMilk
    end in
  let sameObject :=
    match milk0, wholeMilk with
    | Some r, Some d => (fst r =? fst d)%string
    | None, None => true
    | _, _ => false
    end in
  if sameObject
  then match firstWordMatch words milkTypes with
       | Some r => Some r
       | None => milk0
       end
  else milk0.

(** The body of the [try] block; [None] stands for a thrown exception (the
    read of a field of [undefined]). *)
Definition parseOrderItemBody (text : string) : option ItemResult :=
  let lowerText := toLowerCase text in
  let quantity := extractQuantity lowerText in
  let words := splitWhitespace lowerText in
  match extractMenuItem lowerText words with
  | None => Some (itemFailure menuItemNotFound)
  | Some menuItem =>
      match extractSize words, extractMilkType lowerText words with
      | Some sz, Some mk =>
          let unit :=
            basePrice menuItem + priceModifier (snd sz) + priceModifier (snd mk) in
          Some (mkItemResult true
                  (Some (mkOrderItem menuItem quantity (name (snd sz))
                           (name (snd mk)) (unit * inject_Z quantity)))
                  None)
      | _, _ => None
      end
  end.

(** The [catch] block turns an exception into the generic failure. *)
Definition parseOrderItem (text : string) : ItemResult :=
  match parseOrderItemBody text with
  | Some r => r
  | None => itemFailure failedToParseItem
  end.

(** *** Order parser *)

Definition specifyAtLeastOne : string :=
  "Please specify at least one item to order.".

Definition failedToParseOrder : string :=
  "Failed to parse your order. Please try again with a simpler format.".

Definition orderFailure (msg : string) : ParsedOrder :=
  mkParsedOrder false None (Some msg).

(** The state of the loop over the item texts: [orderItems] and [errors]. *)
Definition collected : Type := (list OrderItem * list string)%type.

Definition collect (acc : collected) (itemText : string) : collected :=
  let result := parseOrderItem itemText in
  match itemSuccess result, item result with
  | true, Some it => (fst acc ++ [it], snd acc)
  | _, _ =>
      match itemError result with
      | Some e => if nonEmpty e then (fst acc, snd acc ++ [e]) else acc
      | None => acc
      end
  end.

(** The body of [parseOrder]; nothing in it throws, so its [catch] block
    has no counterpart here, and the calls to the logger leave no trace in
    the result. *)
Definition parseOrder (text : string) : ParsedOrder :=
  let orderItemTexts := splitOrderItems text in
  if (List.length orderItemTexts =? 0)%nat
  then orderFailure specifyAtLeastOne
  else
    let '(orderItems, errors) := fold_left collect orderItemTexts ([], []) in
    if (List.length orderItems =? 0)%nat
    then orderFailure
           (if (0 <? List.length errors)%nat
            then "Failed to parse order: " ++ join "; " errors
            else failedToParseOrder)
    else mkParsedOrder true (Some orderItems) None.

End messageParser.

(** ** The order calculator

    [roundCurrency], [calculateTax] and [createOrder] on exact numbers:
    what the arithmetic of the source computes when no double is rounded.
    The arithmetic of the code itself is that of [Binary64]. *)

Module orderCalculator.

Import JS.

Definition roundCurrency (amount : Q) : Q :=
  inject_Z (Math_round (amount * 100)) / 100.

Definition taxRate : Q := 0.085.

Definition calculateTax (subtotal : Q) : Q := roundCurrency (subtotal * taxRate).

(** [now] is the reading of [Date.now()], in milliseconds. *)
Definition generateOrderId (now : N) (customerId : string) : string :=
  let timestamp := sliceLast 6 (toStringN now) in
  let customerSuffix := sliceLast 3 customerId in
  "ORD-" ++ timestamp ++ "-" ++ customerSuffix.

(** The instant the order is ready, in milliseconds; its rendering as a
    clock string by the host's locale is left out. *)
Definition calculateReadyTime (now : N) : N := (now + 10 * 60000)%N.

(** [idClock] and [readyClock] are the two readings of the clock. *)
Definition createOrder (idClock readyClock : N) (items : list OrderItem)
  (customer : Customer) : Order :=
  let subtotal :=
    fold_left (fun total it => roundCurrency (total + itemTotal it)) items 0 in
  let tax := calculateTax subtotal in
  let total := roundCurrency (subtotal + tax) in
  let orderId := generateOrderId idClock (customerKey customer) in
  let estimatedReady := calculateReadyTime readyClock in
  mkOrder orderId (customerKey customer) (customerFirstName customer)
    items subtotal tax total estimatedReady.

End orderCalculator.

(** ** The parser and the calculator on doubles

    The numbers of the source are IEEE 754 binary64 numbers: the
    arithmetic of [roundCurrency] and [calculateTax], then the item
    interpreter, the order parser and [createOrder] with their quantities
    and amounts as doubles. *)

Module Binary64.

(** An integer of magnitude at most 2^53, as a double. *)
Definition ofZ (z : Z) : PrimFloat.float :=
  if (z <? 0)%Z
  then PrimFloat.opp (PrimFloat.of_uint63 (Uint63.of_Z (- z)))
  else PrimFloat.of_uint63 (Uint63.of_Z z).

(** [Math.round]: a double with a non-negative exponent is an integer
    already; otherwise the value [num * 2^e] is rounded to the floor of
    [num * 2^e + 1/2], a negative value that rounds to zero giving [-0].
    A zero, an infinity and NaN are returned as they are. *)
Definition Math_round (x : PrimFloat.float) : PrimFloat.float :=
  match FloatOps.Prim2SF x with
  | SpecFloat.S754_finite s m e =>
      if (0 <=? e)%Z then x
      else
        let num := if s then Z.neg m else Z.pos m in
        let rounded := ((2 * num + 2 ^ (- e)) / 2 ^ (1 - e))%Z in
        if s && (rounded =? 0)%Z then PrimFloat.neg_zero else ofZ rounded
  | _ => x
  end.

Definition roundCurrency (amount : PrimFloat.float) : PrimFloat.float :=
  PrimFloat.div (Math_round (PrimFloat.mul amount (ofZ 100))) (ofZ 100).

(** The literal [0.085]: the double nearest to 85/1000. *)
Definition taxRate : PrimFloat.float := PrimFloat.div (ofZ 85) (ofZ 1000).

Definition calculateTax (subtotal : PrimFloat.float) : PrimFloat.float :=
  roundCurrency (PrimFloat.mul subtotal taxRate).

Definition orderTotal (subtotal : PrimFloat.float) : PrimFloat.float :=
  roundCurrency (PrimFloat.add subtotal (calculateTax subtotal)).

(** The double nearest to a rational amount that is a whole number of
    cents. *)
Definition ofCents (q : Q) : PrimFloat.float :=
  PrimFloat.div (ofZ (Qfloor (q * 100))) (ofZ 100).

(** The double nearest to a whole number of cents. *)
Definition cents (k : Z) : PrimFloat.float := PrimFloat.div (ofZ k) (ofZ 100).

(** The double that is [halves] half units. *)
Definition ofHalves (halves : Z) : PrimFloat.float :=
  PrimFloat.div (ofZ halves) (ofZ 2).


(** The Number a decimal literal of the source denotes: the double nearest
    to the rational it writes. *)
Definition number (q : Q) : PrimFloat.float :=
  PrimFloat.div (ofZ (Qnum q)) (ofZ (Z.pos (Qden q))).

(** The Number value of an integer: the double nearest to it, a tie going
    to the even mantissa, and infinity from 2^1024 on. *)
Definition ofInteger (z : Z) : PrimFloat.float :=
  FloatOps.SF2Prim
    (SpecFloat.binary_normalize FloatOps.prec FloatOps.emax z 0 false).

(** [parseInt] of a run of decimal digits: the Number value of the integer
    the digits write (beyond the 20th digit ECMAScript lets an engine
    approximate; the correctly rounded value is taken). *)
Definition parseInt (digits : string) : PrimFloat.float :=
  ofInteger (JS.parseInt digits).

(** *** The item interpreter on doubles *)

Record OrderItem : Type := mkOrderItem {
  menuItem : MenuItem;
  quantity : PrimFloat.float;
  size : string;
  milkType : string;
  itemTotal : PrimFloat.float
}.

Record Order : Type := mkOrder {
  orderId : string;
  customerId : string;
  customerName : string;
  items : list OrderItem;
  subtotal : PrimFloat.float;
  tax : PrimFloat.float;
  total : PrimFloat.float;
  estimatedReady : N
}.

Record ItemResult : Type := mkItemResult {
  itemSuccess : bool;
  item : option OrderItem;
  itemError : option string
}.

Record ParsedOrder : Type := mkParsedOrder {
  success : bool;
  parsedItems : option (list OrderItem);
  error : option string
}.

Definition itemFailure (msg : string) : ItemResult :=
  mkItemResult false None (Some msg).

(** The quantity: [parseInt] of the leading run of digits, 1 when there is
    none. *)
Definition extractQuantity (lowerText : string) : PrimFloat.float :=
  match JS.matchLeadingDigits lowerText with
  | Some digits => parseInt digits
  | None => PrimFloat.one
  end.

(** The body of the [try] block.  The menu item, the size and the milk
    are found as in [messageParser]; the prices are the doubles their
    literals denote, and the sums and the product are those of doubles. *)
Definition parseOrderItemBody (text : string) : option ItemResult :=
  let lowerText := JS.toLowerCase text in
  let quantity := extractQuantity lowerText in
  let words := JS.splitWhitespace lowerText in
  match messageParser.extractMenuItem lowerText words with
  | None => Some (itemFailure messageParser.menuItemNotFound)
  | Some menuItem =>
      match messageParser.extractSize words,
            messageParser.extractMilkType lowerText words with
      | Some sz, Some mk =>
          let itemTotal :=
            PrimFloat.add
              (PrimFloat.add (number (basePrice menuItem))
                 (number (priceModifier (snd sz))))
              (number (priceModifier (snd mk))) in
          Some (mkItemResult true
                  (Some (mkOrderItem menuItem quantity (name (snd sz))
                           (name (snd mk)) (PrimFloat.mul itemTotal quantity)))
                  None)
      | _, _ => None
      end
  end.

Definition parseOrderItem (text : string) : ItemResult :=
  match parseOrderItemBody text with
  | Some r => r
  | None => itemFailure messageParser.failedToParseItem
  end.

(** *** The order parser on doubles *)

Definition orderFailure (msg : string) : ParsedOrder :=
  mkParsedOrder false None (Some msg).

Definition collected : Type := (list OrderItem * list string)%type.

Definition collect (acc : collected) (itemText : string) : collected :=
  let result := parseOrderItem itemText in
  match itemSuccess result, item result with
  | true, Some it => (fst acc ++ [it], snd acc)
  | _, _ =>
      match itemError result with
      | Some e =>
          if messageParser.nonEmpty e then (fst acc, snd acc ++ [e]) else acc
      | None => acc
      end
  end.

Definition parseOrder (text : string) : ParsedOrder :=
  let orderItemTexts := messageParser.splitOrderItems text in
  if (List.length orderItemTexts =? 0)%nat
  then orderFailure messageParser.specifyAtLeastOne
  else
    let '(orderItems, errors) := fold_left collect orderItemTexts ([], []) in
    if (List.length orderItems =? 0)%nat
    then orderFailure
           (if (0 <? List.length errors)%nat
            then "Failed to parse order: " ++ JS.join "; " errors
            else messageParser.failedToParseOrder)
    else mkParsedOrder true (Some orderItems) None.

(** The items of the substrings that resolve, in input order. *)
Definition interpreted (itemText : string) : list OrderItem :=
  let r := parseOrderItem itemText in
  if itemSuccess r
  then match item r with
       | Some it => [it]
       | None => []
       end
  else [].

Definition resolvedItems (itemTexts : list string) : list OrderItem :=
  flat_map interpreted itemTexts.

(** *** The order calculator on doubles *)

Definition createOrder (idClock readyClock : N) (items : list OrderItem)
  (customer : Customer) : Order :=
  let subtotal :=
    fold_left
      (fun total it => roundCurrency (PrimFloat.add total (itemTotal it)))
      items PrimFloat.zero in
  let tax := calculateTax subtotal in
  let total := roundCurrency (PrimFloat.add subtotal tax) in
  let orderId :=
    orderCalculator.generateOrderId idClock (customerKey customer) in
  let estimatedReady := orderCalculator.calculateReadyTime readyClock in
  mkOrder orderId (customerKey customer) (customerFirstName customer)
    items subtotal tax total estimatedReady.

End Binary64.

(** ** Reference definitions

    What the specification describes in its own words, for comparison with
    the definitions taken from the source. *)

Module Reference.

Import JS.

Definition substitutionCost (x y : ascii) : nat :=
  if Ascii.eqb x y then 0%nat else 1%nat.

(** The classic edit distance: deleting, inserting and substituting a
    character cost one each. *)
Fixpoint levenshtein (a : list ascii) : list ascii -> nat :=
  fix against (b : list ascii) : nat :=
    match a, b with
    | [], _ => List.length b
    | _, [] => List.length a
    | x :: a', y :: b' =>
        Math_min3 (levenshtein a' b + 1)
                  (against b' + 1)
                  (levenshtein a' b' + substitutionCost x y)
    end.

(** What the distance counts: [editScript a b n] holds when [a] can be
    turned into [b] by [n] single-character deletions, insertions and
    substitutions, the characters left alone costing nothing. *)
Inductive editScript : list ascii -> list ascii -> nat -> Prop :=
| script_done : editScript [] [] 0
| script_keep x a b n :
    editScript a b n -> editScript (x :: a) (x :: b) n
| script_substitute x y a b n :
    editScript a b n -> editScript (x :: a) (y :: b) (S n)
| script_delete x a b n :
    editScript a b n -> editScript (x :: a) b (S n)
| script_insert y a b n :
    editScript a b n -> editScript a (y :: b) (S n).

(** Section 4.1 of the specification. *)
Definition similarity (a b : string) : Q :=
  let a := toLowerCase a in
  let b := toLowerCase b in
  if (a =? b)%string then 1
  else if includes a b || includes b a then 0.9
  else
    let la := list_ascii_of_string a in
    let lb := list_ascii_of_string b in
    1 - messageParser.ofNat (levenshtein la lb)
        / messageParser.ofNat (Nat.max (List.length la) (List.length lb)).

(** Section 4.2 of the specification: the score of a dictionary entry is
    the greatest similarity between the term and the entry's key or one of
    its aliases. *)
Definition entryScore {A : Type} (aliasesOf : A -> option (list string))
  (term : string) (entry : string * A) : Q :=
  fold_left Qmax
    (map (messageParser.calculateSimilarity term)
         (match aliasesOf (snd entry) with
          | Some als => als
          | None => []
          end))
    (messageParser.calculateSimilarity term (fst entry)).

(** Section 4.5 of the specification: the items of a message are the
    successfully interpreted substrings, in input order. *)
Definition interpreted (itemText : string) : list OrderItem :=
  let r := messageParser.parseOrderItem itemText in
  if itemSuccess r
  then match item r with
       | Some it => [it]
       | None => []
       end
  else [].

Definition resolvedItems (itemTexts : list string) : list OrderItem :=
  flat_map interpreted itemTexts.

(** The error strings of the substrings that failed, in input order. *)
Definition itemErrors (itemTexts : list string) : list string :=
  flat_map
    (fun t =>
       let r := messageParser.parseOrderItem t in
       if itemSuccess r then []
       else match itemError r with
            | Some e => [e]
            | None => []
            end)
    itemTexts.

(** Section 4.3 of the specification: a substring is non-empty and has no
    white space at either end. *)
Definition firstChar (s : string) : option ascii :=
  match s with
  | EmptyString => None
  | String c _ => Some c
  end.

Fixpoint lastChar (s : string) : option ascii :=
  match s with
  | EmptyString => None
  | String c s' =>
      match lastChar s' with
      | Some d => Some d
      | None => Some c
      end
  end.

Definition trimmedNonEmpty (s : string) : bool :=
  match firstChar s, lastChar s with
  | Some c, Some d => negb (isWhiteSpace c) && negb (isWhiteSpace d)
  | _, _ => false
  end.

(** An item the interpreter can produce: a resolved item. *)
Definition resolved (it : OrderItem) : Prop :=
  exists text,
    messageParser.parseOrderItem text = mkItemResult true (Some it) None.

(** Rounding to the nearest integer, a tie going away from zero. *)
Definition roundHalfAway (x : Q) : Z :=
  (Z.sgn (Qnum x) * Qfloor (Qabs x + (1 # 2)))%Z.

(** Rounding to two decimals, half away from zero at the cent. *)
Definition roundCents (x : Q) : Q := inject_Z (roundHalfAway (x * 100)) / 100.

(** The price delta of the option called [chosen] in a menu item's option
    list, nothing when the item has no such option. *)
Definition modifierDelta (options : list Modifier) (chosen : string) : Q :=
  match find (fun o => (name o =? chosen)%string) options with
  | Some o => priceModifier o
  | None => 0
  end.

(** Sections 3 and 4.4 of the specification: quantity times unit price,
    the unit price being base plus size delta plus milk delta, rounded to
    two decimals. *)
Definition lineTotal (it : OrderItem) : Q :=
  roundCents
    (inject_Z (quantity it)
     * (basePrice (menuItem it)
        + modifierDelta (sizes (menuItem it)) (size it)
        + modifierDelta (milkOptions (menuItem it)) (milkType it))).

End Reference.

(** ** Invariants used in the proofs *)

Module Invariants.

Import JS Reference.

(** A whole number of cents. *)
Definition centPrecise (x : Q) : Prop := exists k : Z, x == inject_Z k / 100.

(** The unit price of a combination of menu item, size and milk, in half
    currency units. *)
Definition unitHalves (mi : MenuItem) (sz mk : Modifier) : Z :=
  Qfloor ((basePrice mi + priceModifier sz + priceModifier mk) * 2).

(** The check that a combination is priced in non-negative half units and
    that the dictionaries agree with the menu item's own option lists. *)
Definition consistentPricing (mi : MenuItem) (sz mk : Modifier) : bool :=
  Qeq_bool (basePrice mi + priceModifier sz + priceModifier mk)
           (inject_Z (unitHalves mi sz mk) / 2)
  && (0 <=? unitHalves mi sz mk)%Z
  && Qeq_bool (modifierDelta (sizes mi) (name sz)) (priceModifier sz)
  && Qeq_bool (modifierDelta (milkOptions mi) (name mk)) (priceModifier mk).

(** *** The state of the distance matrix while it is filled

    [prefixDistance a b r c] is the value the cell in row [r], column [c]
    has to hold: the distance between the first [r] characters of [a] and
    the first [c] characters of [b]. *)
Definition prefixDistance (a b : list ascii) (r c : nat) : nat :=
  levenshtein (firstn r a) (firstn c b).

(** Row [r] holds its first [n] cells, all of them right. *)
Definition rowFilled (a b : list ascii) (r n : nat) (row : list nat) : Prop :=
  List.length row = n /\
  forall c, (c < n)%nat -> nth c row 0%nat = prefixDistance a b r c.

(** The rows above [i] are complete, row [i] holds [j] cells and the rows
    below hold only their first cell. *)
Definition tableau (a b : list ascii) (i j : nat) (m : messageParser.matrix)
  : Prop :=
  List.length m = S (List.length a) /\
  (forall r, (r < i)%nat -> rowFilled a b r (S (List.length b)) (nth r m [])) /\
  rowFilled a b i j (nth i m []) /\
  (forall r, (i < r)%nat -> (r <= List.length a)%nat ->
             rowFilled a b r 1 (nth r m [])).

(** *** Doubles that hold a half unit exactly

    [canonical p e] is the double of value [p * 2^e], for [p] below 2^53:
    its mantissa is [p] shifted to 53 bits. *)
Definition canonical (p : positive) (e : Z) : SpecFloat.spec_float :=
  let s := (52 - Z.log2 (Z.pos p))%Z in
  SpecFloat.S754_finite false (Pos.shiftl p (Z.to_N s)) (e - s).

(** The double of value [h / 2]. *)
Definition halfUnits (h : Z) : PrimFloat.float :=
  FloatOps.SF2Prim
    match h with
    | Z.pos p => canonical p (-1)
    | _ => SpecFloat.S754_zero false
    end.

(** The tax on [h] half units, in cents: 8.5% of [h / 2], a tie going
    up. *)
Definition taxCents (h : Z) : Z := ((17 * h + 2) / 4)%Z.

(** On a subtotal of [h] half units: the quotient of [h] by 2 is the
    double [h / 2], which is also the double nearest to its amount in cents, [roundCurrency] leaves it as it is, and
    the tax and the total computed on doubles are the doubles nearest to the
    exact tax and the exact total. *)
Definition halfUnitExact (h : Z) : bool :=
  PrimFloat.Leibniz.eqb (Binary64.ofHalves h) (halfUnits h)
  && PrimFloat.Leibniz.eqb (Binary64.cents (50 * h)) (halfUnits h)
  && PrimFloat.Leibniz.eqb (Binary64.roundCurrency (halfUnits h)) (halfUnits h)
  && PrimFloat.Leibniz.eqb (Binary64.calculateTax (halfUnits h))
       (Binary64.cents (taxCents h))
  && PrimFloat.Leibniz.eqb (Binary64.orderTotal (halfUnits h))
       (Binary64.cents (50 * h + taxCents h)).

(** The unit price of a combination, computed on doubles. *)
Definition unitPrice (mi : MenuItem) (sz mk : Modifier) : PrimFloat.float :=
  PrimFloat.add
    (PrimFloat.add (Binary64.number (basePrice mi))
       (Binary64.number (priceModifier sz)))
    (Binary64.number (priceModifier mk)).

(** A combination whose unit price on doubles is exact and at least 3. *)
Definition unitExact (mi : MenuItem) (sz mk : Modifier) : bool :=
  PrimFloat.Leibniz.eqb (unitPrice mi sz mk) (halfUnits (unitHalves mi sz mk))
  && (6 <=? unitHalves mi sz mk)%Z && (unitHalves mi sz mk <=? 10)%Z.


(** The integers from [a] on, [n] of them. *)
Definition range (a n : nat) : list Z := map Z.of_nat (seq a n).

End Invariants.

(** ** The handler of text messages

    The handler awaits each call of [ctx.replyWithHTML], and each call may
    reject (a network failure, a chat that blocked the bot): the rejection
    is thrown at the [await] and caught by the enclosing [catch], which
    sends a reply of its own.  A run of the handler is therefore a list of
    attempts, each a text with the fate of its call, and ends normally or
    with an error that leaves the handler.  The replies are HTML texts
    with characters outside the range of the string model; a reply is kept
    as the template that produces it together with the data the template
    interpolates. *)

Module bot.

Import JS.

(** The [Error] objects the handler meets, by class; [TransportError] is
    what a rejected call of [ctx.replyWithHTML] throws, an error of none of
    the three classes of the file. *)
Inductive BotError : Type :=
| MenuItemNotFoundError (message : string)
| ParseError (message : string)
| ValidationError (message : string)
| PlainError (message : string)
| TransportError.

(** The texts of [formatHtmlResponse] and of the handler's last resort. *)
Inductive HtmlText : Type :=
| OrderConfirmedText (order : Binary64.Order)
| AvailableItemsText (message : string)
| DidNotUnderstandText
| SomethingWentWrongText.

Definition orderConfirmation (order : Binary64.Order) : HtmlText :=
  OrderConfirmedText order.

(** The chain of [instanceof] tests. *)
Definition errorMessage (e : BotError) : HtmlText :=
  match e with
  | MenuItemNotFoundError message => AvailableItemsText message
  | ParseError _ => DidNotUnderstandText
  | _ => SomethingWentWrongText
  end.

Inductive ChatType : Type := private | group | supergroup | channel.

(** [ctx.from]. *)
Record Sender : Type := mkSender {
  senderId : N;
  first_name : string;
  senderUsername : option string
}.

(** What the handler reads of the Telegraf context: [ctx.from],
    [ctx.chat.type] and [ctx.message.text]. *)
Record Context : Type := mkContext {
  from : option Sender;
  chatType : ChatType;
  text : string
}.

Definition isPrivate (t : ChatType) : bool :=
  match t with
  | private => true
  | _ => false
  end.

(** [parsedOrder.error || 'Failed to parse order']. *)
Definition errorOrDefault (e : option string) : string :=
  match e with
  | Some msg => if messageParser.nonEmpty msg then msg else "Failed to parse order"
  | None => "Failed to parse order"
  end.

(** A call of [ctx.replyWithHTML]: the text, and whether the call
    resolved. *)
Definition Attempt : Type := (HtmlText * bool)%type.

(** A step of the handler takes the attempts made so far and gives a value
    or a thrown error, with the attempts made by then. *)
Definition Step (A : Type) : Type :=
  list Attempt -> (BotError + A) * list Attempt.

Definition ret {A : Type} (a : A) : Step A := fun log => (inr a, log).

Definition throw {A : Type} (e : BotError) : Step A := fun log => (inl e, log).

Definition bind {A B : Type} (m : Step A) (f : A -> Step B) : Step B :=
  fun log =>
    match m log with
    | (inl e, log') => (inl e, log')
    | (inr a, log') => f a log'
    end.

(** [try { body } catch (error) { handler }]. *)
Definition tryCatch {A : Type} (body : Step A) (handler : BotError -> Step A)
  : Step A :=
  fun log =>
    match body log with
    | (inl e, log') => handler e log'
    | (inr a, log') => (inr a, log')
    end.

Notation "x <- m ;; k" := (bind m (fun x => k))
  (at level 61, m at next level, right associativity).

Section Handler.

(** [delivered k] says whether the call number [k] of [ctx.replyWithHTML]
    in this run, counted from 0, resolves. *)
Variable delivered : nat -> bool.

(** [await ctx.replyWithHTML(t)]. *)
Definition replyWithHTML (t : HtmlText) : Step unit :=
  fun log =>
    let ok := delivered (List.length log) in
    (if ok then inr tt else inl TransportError, log ++ [(t, ok)]).

(** [extractCustomer] throws when the context names no sender. *)
Definition extractCustomer (ctx : Context) : Step Customer :=
  match from ctx with
  | None => throw (ValidationError "Customer information not available")
  | Some f =>
      ret (mkCustomer (toStringN (senderId f)) (first_name f)
             (senderUsername f))
  end.

(** [await orderCalculator.createOrder(parsedOrder.items!, customer)]: on
    [items] that are [undefined] the reduction throws inside the [try] of
    [createOrder], whose [catch] throws an [Error] of its own. *)
Definition createOrder (idClock readyClock : N)
  (items : option (list Binary64.OrderItem)) (customer : Customer)
  : Step Binary64.Order :=
  match items with
  | Some its => ret (Binary64.createOrder idClock readyClock its customer)
  | None => throw (PlainError "Failed to calculate order details")
  end.

(** The handler, [bot.on(message('text'), ...)].  The calls to the logger
    leave no trace here. *)
Definition onText (idClock readyClock : N) (ctx : Context) : Step unit :=
  tryCatch
    (if String.prefix "/" (text ctx) then ret tt
     else if negb (isPrivate (chatType ctx)) then ret tt
     else
       customer <- extractCustomer ctx ;;
       let parsedOrder := Binary64.parseOrder (text ctx) in
       if negb (Binary64.success parsedOrder)
       then replyWithHTML
              (errorMessage
                 (ParseError (errorOrDefault (Binary64.error parsedOrder))))
       else
         tryCatch
           (order <- createOrder idClock readyClock
                       (Binary64.parsedItems parsedOrder) customer ;;
            replyWithHTML (orderConfirmation order))
           (fun error => replyWithHTML (errorMessage error)))
    (fun _ => replyWithHTML SomethingWentWrongText).

(** The attempts of one run of the handler, in order. *)
Definition attempts (idClock readyClock : N) (ctx : Context) : list Attempt :=
  snd (onText idClock readyClock ctx []).

(** The replies that reached the chat. *)
Definition replies (idClock readyClock : N) (ctx : Context) : list HtmlText :=
  map fst (filter snd (attempts idClock readyClock ctx)).

End Handler.

End bot.

(** ** Further reference definitions *)

Module Coverage.

Import JS.

(** The names of a list of options. *)
Definition optionNames (options : list Modifier) : list string :=
  map name options.

(** The names of the sizes and of the milks a menu item offers. *)
Definition offeredSizes (mi : MenuItem) : list string :=
  optionNames (sizes mi).

Definition offeredMilks (mi : MenuItem) : list string :=
  optionNames (milkOptions mi).

(** A combination of the tables whose names the menu item offers. *)
Definition soundCombination (mi : MenuItem) (sz mk : Modifier) : bool :=
  existsb (String.eqb (name sz)) (offeredSizes mi)
  && existsb (String.eqb (name mk)) (offeredMilks mi).



(** A text in which none of the separators occurs. *)
Definition separatorFree (s : string) : bool :=
  negb (existsb (includes s) messageParser.separators).

(** A reply made from the template that lists the available items. *)
Definition listsMenu (t : bot.HtmlText) : bool :=
  match t with
  | bot.AvailableItemsText _ => true
  | _ => false
  end.

(** The error of a message none of whose [n] substrings resolves. *)
Definition allNotFound (n : nat) : string :=
  "Failed to parse order: "
  ++ join "; " (repeat messageParser.menuItemNotFound n).

End Coverage.

(** * Properties *)

(** An order between an integer and zero, read in [Q]. *)
Ltac order_of_integer :=
  change 0 with (inject_Z 0);
  first [rewrite <- Zle_Qle | rewrite <- Zlt_Qlt];
  first [assumption | lia].

(** ** The primitives at work *)

Section Primitives.

Import JS.

Lemma primitives_examples :
  toLowerCase "1 Large CAP" = "1 large cap" /\
  includes "cappuccino" "cap" = true /\
  includes "cap" "cappuccino" = false /\
  trim "  oat milk  " = "oat milk" /\
  split "a,b,,c" "," = ["a"; "b"; ""; "c"] /\
  split "" "," = [""] /\
  split "x and y and z" " and " = ["x"; "y"; "z"] /\
  splitWhitespace " 2  lattes " = [""; "2"; "lattes"; ""] /\
  splitWhitespace "" = [""] /\
  matchLeadingDigits "12 lattes" = Some "12" /\
  matchLeadingDigits " 12 lattes" = None /\
  parseInt "007" = 7%Z /\
  sliceLast 6 (toStringN 1700000000123) = "000123" /\
  sliceLast 3 "42" = "42" /\
  Math_round 2.5 = 3%Z /\
  Math_round (-2.5) = (-2)%Z.
Proof. repeat split; vm_compute; reflexivity. Qed.

End Primitives.

(** ** Edit distance *)

Section EditDistance.

Import JS Reference.

Lemma levenshtein_nil_l (b : list ascii) : levenshtein [] b = List.length b.
Proof. destruct b; reflexivity. Qed.

Lemma levenshtein_nil_r (a : list ascii) : levenshtein a [] = List.length a.
Proof. destruct a; reflexivity. Qed.

Lemma levenshtein_cons (x y : ascii) (a b : list ascii) :
  levenshtein (x :: a) (y :: b) =
  Math_min3 (levenshtein a (y :: b) + 1)
            (levenshtein (x :: a) b + 1)
            (levenshtein a b + substitutionCost x y).
Proof. reflexivity. Qed.

Lemma substitutionCost_sym (x y : ascii) :
  substitutionCost x y = substitutionCost y x.
Proof. unfold substitutionCost. now rewrite Ascii.eqb_sym. Qed.

Lemma substitutionCost_le (x y : ascii) : (substitutionCost x y <= 1)%nat.
Proof. unfold substitutionCost. destruct (Ascii.eqb x y); lia. Qed.

Lemma levenshtein_sym (a b : list ascii) : levenshtein a b = levenshtein b a.
Proof.
  revert b. induction a as [|x a IHa]; intro b.
  - now rewrite levenshtein_nil_l, levenshtein_nil_r.
  - induction b as [|y b IHb].
    + now rewrite levenshtein_nil_l, levenshtein_nil_r.
    + rewrite !levenshtein_cons, IHb, (IHa (y :: b)), (IHa b).
      rewrite (substitutionCost_sym x y). unfold Math_min3. lia.
Qed.

Lemma levenshtein_le_max (a b : list ascii) :
  (levenshtein a b <= Nat.max (List.length a) (List.length b))%nat.
Proof.
  revert b. induction a as [|x a IHa]; intro b.
  - rewrite levenshtein_nil_l. lia.
  - destruct b as [|y b].
    + rewrite levenshtein_nil_r. lia.
    + rewrite levenshtein_cons. specialize (IHa b).
      pose proof (substitutionCost_le x y). unfold Math_min3. simpl List.length. lia.
Qed.

Lemma levenshtein_refl (a : list ascii) : levenshtein a a = 0%nat.
Proof.
  induction a as [|x a IHa]; [reflexivity|].
  rewrite levenshtein_cons, IHa. unfold substitutionCost.
  rewrite Ascii.eqb_refl. unfold Math_min3. lia.
Qed.

(** The distance is the length of a shortest edit script: some script has
    that many edits, and no script has fewer. *)
Lemma levenshtein_script (a b : list ascii) :
  editScript a b (levenshtein a b).
Proof.
  revert b. induction a as [|x a IHa]; intro b.
  - rewrite levenshtein_nil_l.
    induction b as [|y b IHb]; [constructor|]. cbn. now constructor.
  - induction b as [|y b IHb].
    + rewrite levenshtein_nil_r. cbn [List.length].
      apply script_delete. specialize (IHa []).
      now rewrite levenshtein_nil_r in IHa.
    + rewrite levenshtein_cons. unfold Math_min3.
      destruct (Nat.min_spec (levenshtein a (y :: b) + 1)
                  (Nat.min (levenshtein (x :: a) b + 1)
                     (levenshtein a b + substitutionCost x y)))
        as [[_ ->]|[_ ->]].
      * rewrite Nat.add_1_r. apply script_delete, IHa.
      * destruct (Nat.min_spec (levenshtein (x :: a) b + 1)
                    (levenshtein a b + substitutionCost x y))
          as [[_ ->]|[_ ->]].
        -- rewrite Nat.add_1_r. apply script_insert, IHb.
        -- unfold substitutionCost. destruct (Ascii.eqb_spec x y) as [->|_].
           ++ rewrite Nat.add_0_r. apply script_keep, IHa.
           ++ rewrite Nat.add_1_r. apply script_substitute, IHa.
Qed.

Lemma levenshtein_delete (x : ascii) (a b : list ascii) :
  (levenshtein (x :: a) b <= levenshtein a b + 1)%nat.
Proof.
  destruct b as [|y b].
  - rewrite !levenshtein_nil_r. cbn. lia.
  - rewrite levenshtein_cons. unfold Math_min3. lia.
Qed.

Lemma levenshtein_insert (y : ascii) (a b : list ascii) :
  (levenshtein a (y :: b) <= levenshtein a b + 1)%nat.
Proof.
  rewrite (levenshtein_sym a (y :: b)), (levenshtein_sym a b).
  apply levenshtein_delete.
Qed.

Lemma levenshtein_least (a b : list ascii) (n : nat) :
  editScript a b n -> (levenshtein a b <= n)%nat.
Proof.
  induction 1 as [|x a b n _ IH|x y a b n _ IH|x a b n _ IH|y a b n _ IH].
  - cbn. lia.
  - rewrite levenshtein_cons. unfold Math_min3, substitutionCost.
    rewrite Ascii.eqb_refl. lia.
  - rewrite levenshtein_cons. pose proof (substitutionCost_le x y).
    unfold Math_min3. lia.
  - pose proof (levenshtein_delete x a b). lia.
  - pose proof (levenshtein_insert y a b). lia.
Qed.

(** Both sides of the next lemma are the least of the same nine sums. *)
Lemma min3_exchange (p q r s t u v w z c d : nat) :
  Math_min3 (Math_min3 (p + 1) (q + 1) (r + c) + 1)
            (Math_min3 (s + 1) (t + 1) (u + c) + 1)
            (Math_min3 (v + 1) (w + 1) (z + c) + d) =
  Math_min3 (Math_min3 (p + 1) (s + 1) (v + d) + 1)
            (Math_min3 (q + 1) (t + 1) (w + d) + 1)
            (Math_min3 (r + 1) (u + 1) (z + d) + c).
Proof.
  unfold Math_min3. rewrite <- !Nat.add_min_distr_r.
  apply Nat.le_antisymm; repeat apply Nat.min_glb; lia.
Qed.

(** The recurrence read from the other end: the distance of two strings
    extended by one character each. *)
Lemma levenshtein_snoc (x y : ascii) (a b : list ascii) :
  levenshtein (a ++ [x]) (b ++ [y]) =
  Math_min3 (levenshtein a (b ++ [y]) + 1)
            (levenshtein (a ++ [x]) b + 1)
            (levenshtein a b + substitutionCost x y).
Proof.
  revert b. induction a as [|a0 a IHa]; intro b.
  - induction b as [|b0 b IHb].
    + reflexivity.
    + cbn [app] in *. rewrite (levenshtein_cons x b0), IHb.
      rewrite (levenshtein_cons x b0 [] b).
      rewrite !levenshtein_nil_l, ?length_app. cbn [List.length].
      unfold Math_min3. lia.
  - induction b as [|b0 b IHb].
    + cbn [app] in *. rewrite (levenshtein_cons a0 y).
      pose proof (IHa []) as H. cbn [app] in H. rewrite H.
      rewrite (levenshtein_cons a0 y a []).
      rewrite !levenshtein_nil_r, ?length_app. cbn [List.length].
      unfold Math_min3. lia.
    + cbn [app] in *. rewrite (levenshtein_cons a0 b0 (a ++ [x]) (b ++ [y])).
      pose proof (IHa (b0 :: b)) as H1. cbn [app] in H1. rewrite H1.
      rewrite IHb, (IHa b).
      rewrite (levenshtein_cons a0 b0 a (b ++ [y])).
      rewrite (levenshtein_cons a0 b0 (a ++ [x]) b).
      rewrite (levenshtein_cons a0 b0 a b).
      apply min3_exchange.
Qed.

End EditDistance.

(** ** Growing arrays *)

Section Arrays.

Import JS.

Context {A : Type}.

Lemma arraySet_length (hole : A) (arr : list A) (i : nat) (v : A) :
  (i <= List.length arr)%nat ->
  List.length (arraySet hole arr i v) = Nat.max (List.length arr) (S i).
Proof.
  intros Hi. unfold arraySet. destruct (Nat.ltb_spec i (List.length arr)).
  - rewrite length_app. cbn [List.length]. rewrite length_firstn, length_skipn. lia.
  - replace (i - List.length arr)%nat with 0%nat by lia.
    rewrite !length_app. cbn. lia.
Qed.

Lemma nth_arraySet_same (hole d : A) (arr : list A) (i : nat) (v : A) :
  (i <= List.length arr)%nat -> nth i (arraySet hole arr i v) d = v.
Proof.
  intros Hi. unfold arraySet. destruct (Nat.ltb_spec i (List.length arr)).
  - rewrite app_nth2; rewrite length_firstn; [|lia].
    replace (i - Nat.min i (List.length arr))%nat with 0%nat by lia. reflexivity.
  - replace (i - List.length arr)%nat with 0%nat by lia. cbn [repeat app].
    rewrite app_nth2 by lia.
    replace (i - List.length arr)%nat with 0%nat by lia. reflexivity.
Qed.

Lemma nth_arraySet_other (hole d : A) (arr : list A) (i k : nat) (v : A) :
  k <> i -> (i <= List.length arr)%nat ->
  nth k (arraySet hole arr i v) d = nth k arr d.
Proof.
  intros Hk Hi. unfold arraySet. destruct (Nat.ltb_spec i (List.length arr)).
  - destruct (Nat.lt_ge_cases k i).
    + rewrite app_nth1 by (rewrite length_firstn; lia).
      now rewrite nth_firstn, (proj2 (Nat.ltb_lt k i)).
    + rewrite app_nth2; rewrite length_firstn; [|lia].
      replace (Nat.min i (List.length arr)) with i by lia.
      destruct (k - i)%nat as [|n] eqn:E; [lia|]. cbn [nth].
      rewrite nth_skipn. f_equal. lia.
  - replace (i - List.length arr)%nat with 0%nat by lia. cbn [repeat app].
    destruct (Nat.lt_ge_cases k (List.length arr)).
    + now rewrite app_nth1.
    + rewrite !nth_overflow; [reflexivity|lia|rewrite length_app; cbn; lia].
Qed.

(** Writing a cell the value it already holds changes nothing. *)
Lemma arraySet_same_value (hole d : A) (arr : list A) (i : nat) (v : A) :
  (i < List.length arr)%nat -> nth i arr d = v -> arraySet hole arr i v = arr.
Proof.
  intros Hi Hv. unfold arraySet. rewrite (proj2 (Nat.ltb_lt _ _) Hi).
  rewrite <- Hv. clear Hv. revert i Hi.
  induction arr as [|x arr IH]; intros i Hi; [cbn in Hi; lia|].
  destruct i as [|i]; [reflexivity|].
  cbn [firstn skipn app nth]. f_equal. apply IH. cbn in Hi. lia.
Qed.

End Arrays.

(** ** The distance matrix *)

Section Matrix.

Import JS Reference Invariants messageParser.

Variables a b : list ascii.

Lemma firstn_snoc {A : Type} (d : A) (l : list A) (n : nat) :
  (n < List.length l)%nat -> firstn (S n) l = firstn n l ++ [nth n l d].
Proof.
  revert n. induction l as [|x l IH]; intros n Hn; [cbn in Hn; lia|].
  destruct n as [|n]; [reflexivity|].
  cbn [firstn nth app]. cbn [firstn] in IH.
  rewrite IH; [reflexivity | cbn in Hn; lia].
Qed.

Lemma prefixDistance_row0 (c : nat) :
  (c <= List.length b)%nat -> prefixDistance a b 0 c = c.
Proof.
  intros Hc. unfold prefixDistance. cbn [firstn].
  rewrite levenshtein_nil_l, length_firstn. lia.
Qed.

Lemma prefixDistance_col0 (r : nat) :
  (r <= List.length a)%nat -> prefixDistance a b r 0 = r.
Proof.
  intros Hr. unfold prefixDistance. cbn [firstn].
  rewrite levenshtein_nil_r, length_firstn. lia.
Qed.

Lemma prefixDistance_step (r c : nat) :
  (r < List.length a)%nat -> (c < List.length b)%nat ->
  prefixDistance a b (S r) (S c) =
  Math_min3 (prefixDistance a b r (S c) + 1)
            (prefixDistance a b (S r) c + 1)
            (prefixDistance a b r c
             + (if Ascii.eqb (charAt a r) (charAt b c) then 0 else 1)).
Proof.
  intros Hr Hc. unfold prefixDistance, charAt.
  rewrite (firstn_snoc Ascii.zero a r Hr), (firstn_snoc Ascii.zero b c Hc).
  apply levenshtein_snoc.
Qed.

Lemma prefixDistance_full :
  prefixDistance a b (List.length a) (List.length b) = levenshtein a b.
Proof. unfold prefixDistance. now rewrite !firstn_all. Qed.

(** A filled cell reads back the right distance. *)
Lemma cell_rowFilled (m : matrix) (r n c : nat) :
  rowFilled a b r n (nth r m []) -> (c < n)%nat ->
  cell m r c = prefixDistance a b r c.
Proof. intros [_ H] Hc. unfold cell. now apply H. Qed.

(** Appending the next cell of row [i]. *)
Lemma setCell_tableau (m : matrix) (i j v : nat) :
  tableau a b i j m -> (i <= List.length a)%nat ->
  v = prefixDistance a b i j ->
  tableau a b i (S j) (setCell m i j v).
Proof.
  intros (Hlen & Habove & [Hrl Hrv] & Hbelow) Hi Hv. unfold setCell.
  assert (Hrow : (j <= List.length (nth i m []))%nat) by lia.
  split; [|split; [|split]].
  - rewrite arraySet_length by lia. lia.
  - intros r Hr. rewrite nth_arraySet_other by lia.
    now apply Habove.
  - rewrite nth_arraySet_same by lia. split.
    + rewrite arraySet_length by lia. lia.
    + intros c Hc. destruct (Nat.eq_dec c j) as [->|Hne].
      * now rewrite nth_arraySet_same by lia.
      * rewrite nth_arraySet_other by lia. apply Hrv. lia.
  - intros r Hr Hr'. rewrite nth_arraySet_other by lia. now apply Hbelow.
Qed.

(** The first loop: one row per character of [a], each with its index. *)
Lemma initRows_spec (n k : nat) :
  fold_left (fun m i => arraySet [] m i [i]) (seq k n)
            (map (fun i => [i]) (seq 0 k)) =
  map (fun i => [i]) (seq 0 (k + n)).
Proof.
  revert k. induction n as [|n IH]; intro k.
  - now rewrite Nat.add_0_r.
  - cbn [seq fold_left]. unfold arraySet at 2.
    rewrite length_map, length_seq, Nat.ltb_irrefl, Nat.sub_diag.
    cbn [repeat app].
    replace (map (fun i => [i]) (seq 0 k) ++ [[k]])
      with (map (fun i : nat => [i]) (seq 0 (S k)))
      by now rewrite seq_S, map_app.
    rewrite IH. f_equal. f_equal. lia.
Qed.

Lemma tableau_initRows :
  tableau a b 0 1 (map (fun i => [i]) (seq 0 (S (List.length a)))).
Proof.
  assert (Hnth : forall r, (r <= List.length a)%nat ->
            nth r (map (fun i => [i]) (seq 0 (S (List.length a)))) [] = [r]).
  { intros r Hr.
    rewrite (nth_indep _ [] [0%nat])
      by (rewrite length_map, length_seq; lia).
    pose proof (map_nth (fun i : nat => [i]) (seq 0 (S (List.length a)))
                  0%nat r) as E.
    cbn beta in E. rewrite E, seq_nth by lia. reflexivity. }
  assert (Hrow : forall r, (r <= List.length a)%nat -> rowFilled a b r 1 [r]).
  { intros r Hr. split; [reflexivity|]. intros c Hc.
    replace c with 0%nat by lia. cbn. now rewrite prefixDistance_col0. }
  split; [|split; [|split]].
  - now rewrite length_map, length_seq.
  - intros r Hr. lia.
  - rewrite Hnth by lia. apply Hrow. lia.
  - intros r _ Hr. rewrite Hnth by lia. now apply Hrow.
Qed.

(** The second loop writes the column indices into row 0. *)
Lemma firstRow_spec (n j : nat) (m : matrix) :
  (1 <= j)%nat -> (j + n = S (List.length b))%nat ->
  tableau a b 0 j m ->
  tableau a b 0 (S (List.length b))
    (fold_left (fun m j => setCell m 0 j j) (seq j n) m).
Proof.
  revert j m. induction n as [|n IH]; intros j m Hj Hn Ht.
  - cbn. now replace (S (List.length b)) with j by lia.
  - cbn [seq fold_left]. apply IH; [lia|lia|].
    apply setCell_tableau; [assumption|lia|].
    now rewrite prefixDistance_row0 by lia.
Qed.

Lemma firstRow_rewrite (m : matrix) :
  tableau a b 0 1 m -> setCell m 0 0 0 = m.
Proof.
  intros (Hlen & _ & [Hrl Hrv] & _). unfold setCell.
  assert (H0 : nth 0 (nth 0 m []) 0%nat = 0%nat).
  { rewrite Hrv by lia. now rewrite prefixDistance_row0 by lia. }
  rewrite (arraySet_same_value 0%nat 0%nat) by (lia || assumption).
  apply (arraySet_same_value [] []); [lia|reflexivity].
Qed.

(** One pass of the inner loop body. *)
Lemma fillCell_tableau (m : matrix) (i j : nat) :
  (1 <= i <= List.length a)%nat -> (1 <= j <= List.length b)%nat ->
  tableau a b i j m -> tableau a b i (S j) (fillCell a b i m j).
Proof.
  intros Hi Hj Ht. unfold fillCell.
  apply setCell_tableau; [assumption|lia|].
  destruct Ht as (Hlen & Habove & Hrow & Hbelow).
  rewrite (cell_rowFilled m (i - 1) (S (List.length b)) j)
    by (try apply Habove; lia).
  rewrite (cell_rowFilled m i j (j - 1)) by (try assumption; lia).
  rewrite (cell_rowFilled m (i - 1) (S (List.length b)) (j - 1))
    by (try apply Habove; lia).
  destruct i as [|i]; [lia|]. destruct j as [|j]; [lia|].
  replace (S i - 1)%nat with i by lia. replace (S j - 1)%nat with j by lia.
  now rewrite prefixDistance_step by lia.
Qed.

Lemma fillRow_spec (n i j : nat) (m : matrix) :
  (1 <= i <= List.length a)%nat -> (1 <= j)%nat ->
  (j + n = S (List.length b))%nat ->
  tableau a b i j m ->
  tableau a b i (S (List.length b)) (fold_left (fillCell a b i) (seq j n) m).
Proof.
  revert j m. induction n as [|n IH]; intros j m Hi Hj Hn Ht.
  - cbn. now replace (S (List.length b)) with j by lia.
  - cbn [seq fold_left]. apply IH; [assumption|lia|lia|].
    apply fillCell_tableau; [assumption|lia|assumption].
Qed.

(** A complete row hands over to the next one, which holds one cell. *)
Lemma tableau_next_row (m : matrix) (i : nat) :
  (S i <= List.length a)%nat ->
  tableau a b i (S (List.length b)) m -> tableau a b (S i) 1 m.
Proof.
  intros Hi (Hlen & Habove & Hrow & Hbelow).
  split; [|split; [|split]].
  - assumption.
  - intros r Hr.
    destruct (Nat.eq_dec r i) as [->|Hne]; [apply Hrow|apply Habove; lia].
  - apply Hbelow; lia.
  - intros r Hr Hr'. apply Hbelow; lia.
Qed.

Lemma fillMatrix_spec (n i : nat) (m : matrix) :
  (i + n = List.length a)%nat ->
  tableau a b i (S (List.length b)) m ->
  tableau a b (List.length a) (S (List.length b))
    (fold_left
       (fun m i => fold_left (fillCell a b i) (seq 1 (List.length b)) m)
       (seq (S i) n) m).
Proof.
  revert i m. induction n as [|n IH]; intros i m Hn Ht.
  - cbn. now replace (List.length a) with i by lia.
  - cbn [seq fold_left]. apply IH; [lia|].
    apply fillRow_spec; [lia|lia|lia|].
    apply tableau_next_row; [lia|assumption].
Qed.

(** The cell the scorer reads holds the edit distance. *)
Lemma levenshteinMatrix_spec :
  cell (levenshteinMatrix a b) (List.length a) (List.length b) = levenshtein a b.
Proof.
  rewrite <- prefixDistance_full.
  apply (cell_rowFilled _ _ (S (List.length b))); [|lia].
  assert (Ht : tableau a b (List.length a) (S (List.length b))
                 (levenshteinMatrix a b)).
  { unfold levenshteinMatrix. cbv zeta.
    apply (fillMatrix_spec (List.length a) 0); [lia|].
    pose proof (initRows_spec (S (List.length a)) 0) as Hinit.
    change (fold_left (fun m i => arraySet [] m i [i])
              (seq 0 (S (List.length a))) [] =
            map (fun i => [i]) (seq 0 (S (List.length a)))) in Hinit.
    rewrite Hinit.
    pose proof tableau_initRows as H0.
    change (seq 0 (S (List.length b))) with (0%nat :: seq 1 (List.length b)).
    cbn [fold_left]. rewrite (firstRow_rewrite _ H0).
    apply firstRow_spec; [lia|lia|exact H0]. }
  destruct Ht as (_ & _ & Hrow & _). exact Hrow.
Qed.

End Matrix.

(** ** Similarity scorer *)

Section Similarity.

Import JS Reference messageParser.

Lemma prefix_iff (p s : string) :
  String.prefix p s = true <-> exists post, s = (p ++ post)%string.
Proof.
  revert s. induction p as [|c p IH]; intro s.
  - destruct s; cbn; split; eauto.
  - destruct s as [|d s]; cbn.
    + split; [discriminate|]. intros [post H]. discriminate.
    + destruct (ascii_dec c d) as [->|Hne].
      * rewrite IH. split; intros [post H]; exists post; congruence.
      * split; [discriminate|]. intros [post H]. congruence.
Qed.

(** [includes] decides containment as a contiguous substring. *)
Lemma includes_iff (s sub : string) :
  includes s sub = true <-> exists pre post, s = (pre ++ sub ++ post)%string.
Proof.
  induction s as [|c s IH].
  - cbn [includes]. rewrite orb_false_r, prefix_iff. split.
    + intros [post H]. now exists "", post.
    + intros (pre & post & H). destruct pre; [now exists post|discriminate].
  - cbn [includes]. rewrite orb_true_iff, prefix_iff, IH. split.
    + intros [[post H]|(pre & post & H)].
      * now exists "", post.
      * exists (String c pre), post. cbn. now rewrite H.
    + intros (pre & post & H). destruct pre as [|d pre].
      * left. now exists post.
      * right. exists pre, post. cbn in H. congruence.
Qed.

Lemma includes_empty (s : string) : includes s "" = true.
Proof. apply includes_iff. now exists "", s. Qed.

Lemma length_list_ascii_of_string (s : string) :
  List.length (list_ascii_of_string s) = String.length s.
Proof. induction s; cbn; congruence. Qed.

(** When the scorer reaches the division, the divisor is not zero. *)
Lemma calculateSimilarity_divisor (a b : string) :
  includes a b || includes b a = false ->
  (1 <= Nat.max (List.length (list_ascii_of_string a))
                (List.length (list_ascii_of_string b)))%nat.
Proof.
  intros H. apply orb_false_elim in H. destruct H as [H _].
  destruct b as [|c b]; [now rewrite includes_empty in H|].
  cbn [list_ascii_of_string List.length]. lia.
Qed.

Lemma ofNat_ratio_bounds (d m : nat) :
  (d <= m)%nat -> 0 <= 1 - ofNat d / ofNat m <= 1.
Proof.
  intros Hdm. unfold ofNat.
  destruct (Nat.eq_dec m 0) as [->|Hm].
  - replace d with 0%nat by lia. cbn. split; discriminate.
  - assert (Hpos : 0 < inject_Z (Z.of_nat m)).
    { order_of_integer. }
    assert (Hle : inject_Z (Z.of_nat d) <= inject_Z (Z.of_nat m)).
    { rewrite <- Zle_Qle. lia. }
    assert (Hnn : 0 <= inject_Z (Z.of_nat d)).
    { order_of_integer. }
    assert (H1 : inject_Z (Z.of_nat d) / inject_Z (Z.of_nat m) <= 1).
    { apply Qle_shift_div_r; [assumption|]. lra. }
    assert (H0 : 0 <= inject_Z (Z.of_nat d) / inject_Z (Z.of_nat m)).
    { apply Qle_shift_div_l; [assumption|]. lra. }
    lra.
Qed.

Lemma calculateSimilarity_similarity (x y : string) :
  calculateSimilarity x y = similarity x y.
Proof.
  unfold calculateSimilarity, similarity. cbv zeta.
  destruct (toLowerCase x =? toLowerCase y)%string; [reflexivity|].
  destruct (includes _ _ || includes _ _); [reflexivity|].
  now rewrite levenshteinMatrix_spec.
Qed.

(** C5. After lowercasing, [calculateSimilarity] is the reference scorer:
    1 for equal strings, 0.9 when one contains the other, and otherwise one
    minus the unit-cost edit distance over the longer length.  Hence the
    score lies between 0 and 1, a string scores 1 against itself, and the
    score does not depend on the order of its arguments. *)
Theorem calculateSimilarity_reference (a b : string) :
  calculateSimilarity a b = similarity a b /\
  (0 <= calculateSimilarity a b <= 1) /\
  calculateSimilarity a a = 1 /\
  calculateSimilarity a b = calculateSimilarity b a.
Proof.
  pose proof calculateSimilarity_similarity as Href.
  split; [apply Href|]. split; [|split].
  - rewrite Href. unfold similarity. cbv zeta.
    destruct (toLowerCase a =? toLowerCase b)%string; [split; discriminate|].
    destruct (includes _ _ || includes _ _); [split; discriminate|].
    apply ofNat_ratio_bounds, levenshtein_le_max.
  - unfold calculateSimilarity. cbv zeta. now rewrite String.eqb_refl.
  - rewrite !Href. unfold similarity. cbv zeta.
    rewrite (String.eqb_sym (toLowerCase b)).
    destruct (toLowerCase a =? toLowerCase b)%string; [reflexivity|].
    rewrite (orb_comm (includes (toLowerCase b) _)).
    destruct (includes _ _ || includes _ _); [reflexivity|].
    now rewrite levenshtein_sym, Nat.max_comm.
Qed.

End Similarity.

(** ** Lexicon matcher *)

Section Matcher.

Import JS Reference messageParser.

Context {A : Type}.

Variable aliasesOf : A -> option (list string).

Variable term : string.

Lemma Qgtb_true (x y : Q) : Qgtb x y = true <-> y < x.
Proof.
  unfold Qgtb. rewrite negb_true_iff, <- not_true_iff_false, Qle_bool_iff.
  split; [apply Qnot_le_lt | apply Qlt_not_le].
Qed.

Lemma Qgtb_false (x y : Q) : Qgtb x y = false <-> x <= y.
Proof. unfold Qgtb. now rewrite negb_false_iff, Qle_bool_iff. Qed.

Lemma fold_Qmax_proper (xs : list Q) (q q' : Q) :
  q == q' -> fold_left Qmax xs q == fold_left Qmax xs q'.
Proof.
  revert q q'. induction xs as [|x xs IH]; intros q q' Hq; cbn [fold_left].
  - assumption.
  - apply IH. now rewrite Hq.
Qed.

(** One comparison: the best score becomes the greater of the two, and the
    match changes only on a strict improvement. *)
Lemma consider_spec (key : string) (it : A) (st : scan) (c : string) :
  let st' := consider term key it st c in
  snd st' == Qmax (snd st) (calculateSimilarity term c) /\
  (st' = st \/
   snd st < snd st' /\ fst st' = Some (mkMatch key it (snd st'))).
Proof.
  unfold consider. cbv zeta.
  destruct (Qgtb (calculateSimilarity term c) (snd st)) eqn:E.
  - apply Qgtb_true in E. cbn [fst snd]. split.
    + symmetry. apply Q.max_r. lra.
    + right. now split.
  - apply Qgtb_false in E. split.
    + symmetry. now apply Q.max_l.
    + now left.
Qed.

Lemma consider_fold (key : string) (it : A) (cs : list string) (st : scan) :
  let st' := fold_left (consider term key it) cs st in
  snd st' == fold_left Qmax (map (calculateSimilarity term) cs) (snd st) /\
  (st' = st \/
   snd st < snd st' /\ fst st' = Some (mkMatch key it (snd st'))).
Proof.
  revert st. induction cs as [|c cs IH]; intro st; cbn [fold_left map].
  - split; [reflexivity|now left].
  - destruct (consider_spec key it st c) as [Hmax Hstep].
    destruct (IH (consider term key it st c)) as [Hmax' Hrest].
    cbv zeta in *. split.
    + rewrite Hmax'. now apply fold_Qmax_proper.
    + destruct Hrest as [Hsame|[Hlt Hsome]].
      * rewrite Hsame. exact Hstep.
      * right. split; [|assumption].
        destruct Hstep as [Hsame|[Hlt0 _]]; [|lra].
        rewrite Hsame in Hlt |- *. exact Hlt.
Qed.

(** The greatest of a list is at least its seed and grows with it. *)
Lemma fold_Qmax_seed (xs : list Q) (q : Q) : q <= fold_left Qmax xs q.
Proof.
  revert q. induction xs as [|x xs IH]; intro q; cbn [fold_left].
  - lra.
  - eapply Qle_trans; [apply Q.le_max_l|apply IH].
Qed.

Lemma fold_Qmax_assoc (xs : list Q) (p q : Q) :
  fold_left Qmax xs (Qmax p q) == Qmax p (fold_left Qmax xs q).
Proof.
  revert q. induction xs as [|x xs IH]; intro q; cbn [fold_left].
  - reflexivity.
  - rewrite <- IH. apply fold_Qmax_proper. symmetry. apply Q.max_assoc.
Qed.

(** Scanning one entry: the best score becomes the greater of the old one
    and the entry's score. *)
Lemma scanEntry_spec (st : scan) (entry : string * A) :
  let st' := scanEntry aliasesOf term st entry in
  snd st' == Qmax (snd st) (entryScore aliasesOf term entry) /\
  (st' = st \/
   snd st < snd st' /\
   fst st' = Some (mkMatch (fst entry) (snd entry) (snd st'))).
Proof.
  destruct entry as [key it]. cbv zeta.
  assert (H : scanEntry aliasesOf term st (key, it) =
              fold_left (consider term key it)
                (key :: match aliasesOf it with Some als => als | None => [] end)
                st).
  { unfold scanEntry. cbn [fold_left]. now destruct (aliasesOf it). }
  rewrite H.
  destruct (consider_fold key it
              (key :: match aliasesOf it with Some als => als | None => [] end)
              st) as [Hmax Hstep].
  cbv zeta in *. split; [|exact Hstep].
  rewrite Hmax. unfold entryScore. cbn [fst snd map fold_left].
  apply fold_Qmax_assoc.
Qed.

(** The whole scan, from any starting state: either nothing beat the
    starting score, or the first entry with the greatest score was kept. *)
Lemma scan_spec (dictionary : list (string * A)) (st : scan) :
  let st' := fold_left (scanEntry aliasesOf term) dictionary st in
  (st' = st /\
   Forall (fun e => entryScore aliasesOf term e <= snd st) dictionary) \/
  (exists pre key it post,
     dictionary = pre ++ (key, it) :: post /\
     fst st' = Some (mkMatch key it (snd st')) /\
     snd st < snd st' /\
     snd st' == entryScore aliasesOf term (key, it) /\
     Forall (fun e => entryScore aliasesOf term e < snd st') pre /\
     Forall (fun e => entryScore aliasesOf term e <= snd st') post).
Proof.
  revert st. induction dictionary as [|e rest IH]; intro st; cbn [fold_left].
  - left. now split.
  - destruct (scanEntry_spec st e) as [Hmax Hstep].
    destruct (IH (scanEntry aliasesOf term st e)) as
      [[Heq Hall]|(pre & key & it & post & Hd & Hm & Hlt & Hs & Hpre & Hpost)];
      cbv zeta in *.
    + destruct Hstep as [Hsame|[Hlt Hsome]].
      * left. rewrite Heq, Hsame. split; [reflexivity|].
        constructor; [|now rewrite Hsame in Hall].
        rewrite Hsame in Hmax.
        pose proof (Q.le_max_r (snd st) (entryScore aliasesOf term e)). lra.
      * right. exists [], (fst e), (snd e), rest. rewrite Heq.
        assert (Hscore : snd (scanEntry aliasesOf term st e) ==
                         entryScore aliasesOf term e).
        { rewrite Hmax. apply Q.max_r.
          destruct (Q.max_spec (snd st) (entryScore aliasesOf term e))
            as [[H1 H2]|[H1 H2]]; lra. }
        destruct e as [k v]. cbn [fst snd] in *.
        repeat split; try assumption. constructor.
    + right. exists (e :: pre), key, it, post.
      assert (He : entryScore aliasesOf term e <=
                   snd (scanEntry aliasesOf term st e)).
      { rewrite Hmax. apply Q.le_max_r. }
      assert (Hst : snd st <= snd (scanEntry aliasesOf term st e)).
      { rewrite Hmax. apply Q.le_max_l. }
      repeat split; try assumption.
      * now rewrite Hd.
      * lra.
      * constructor; [lra|assumption].
Qed.

(** C6. The score of an entry being the greatest similarity over its key
    and its aliases, [findBestMatch] returns nothing when no entry scores
    above the threshold.  Otherwise it returns an entry of the dictionary
    with that entry's score; the score is strictly above the threshold,
    every earlier entry scores strictly less and no later entry scores
    more, so among entries that tie for the best score the first in
    declaration order wins.  The threshold its callers leave to the default
    is 0.7. *)
Theorem findBestMatch_first_best (dictionary : list (string * A))
  (threshold : Q) :
  defaultThreshold == 0.7 /\
  match findBestMatch aliasesOf term dictionary threshold with
  | None =>
      Forall (fun e => entryScore aliasesOf term e <= threshold) dictionary
  | Some m =>
      threshold < score m /\
      exists pre post,
        dictionary = pre ++ (matchKey m, matchItem m) :: post /\
        score m == entryScore aliasesOf term (matchKey m, matchItem m) /\
        Forall (fun e => entryScore aliasesOf term e < score m) pre /\
        Forall (fun e => entryScore aliasesOf term e <= score m) post
  end.
Proof.
  split; [reflexivity|]. unfold findBestMatch.
  destruct (scan_spec dictionary (None, threshold)) as
    [[Heq Hall]|(pre & key & it & post & Hd & Hm & Hlt & Hs & Hpre & Hpost)];
    cbv zeta in *.
  - rewrite Heq. exact Hall.
  - rewrite Hm. cbn [score matchKey matchItem fst snd] in *.
    split; [assumption|]. now exists pre, post.
Qed.

End Matcher.

(** ** Item interpreter: the shape of a result *)

Section ItemShape.

Import JS Reference messageParser.

(** An interpretation either succeeds with an item and no error, or fails
    with a non-empty error and no item. *)
Lemma parseOrderItem_shape (text : string) :
  (exists it, parseOrderItem text = mkItemResult true (Some it) None) \/
  (exists e, parseOrderItem text = itemFailure e /\ nonEmpty e = true).
Proof.
  unfold parseOrderItem, parseOrderItemBody. cbv zeta.
  destruct (extractMenuItem _ _) as [mi|].
  - destruct (extractSize _) as [sz|];
      destruct (extractMilkType (toLowerCase text)
                  (splitWhitespace (toLowerCase text))) as [mk|];
      solve [ left; eexists; reflexivity
            | right; eexists; split; reflexivity ].
  - right. eexists. split; reflexivity.
Qed.

End ItemShape.

(** ** Order parser *)

Section Parser.

Import JS Reference messageParser.

Lemma collect_spec (itemText : string) (acc : collected) :
  collect acc itemText =
  (fst acc ++ interpreted itemText, snd acc ++ itemErrors [itemText]).
Proof.
  unfold collect, interpreted, itemErrors. cbn [flat_map]. cbv zeta.
  destruct (parseOrderItem_shape itemText) as [[it ->]|(e & -> & He)];
    cbn [itemSuccess item itemError itemFailure].
  - rewrite !app_nil_r. reflexivity.
  - rewrite He, !app_nil_r. now destruct acc.
Qed.

(** The loop over the item texts collects the resolved items and the
    error strings, each in input order. *)
Lemma collect_fold (itemTexts : list string) (acc : collected) :
  fold_left collect itemTexts acc =
  (fst acc ++ resolvedItems itemTexts, snd acc ++ itemErrors itemTexts).
Proof.
  revert acc. induction itemTexts as [|t ts IH]; intro acc.
  - cbn. rewrite !app_nil_r. now destruct acc.
  - cbn [fold_left]. rewrite IH, collect_spec. cbn [fst snd].
    unfold resolvedItems, itemErrors. cbn [flat_map].
    now rewrite !app_nil_r, <- !app_assoc.
Qed.




(** The request to specify an item is returned exactly when the split
    yields no substring. *)
Lemma parseOrder_specify_iff (text : string) :
  parseOrder text = orderFailure specifyAtLeastOne <->
  splitOrderItems text = [].
Proof.
  unfold parseOrder. cbv zeta.
  destruct (splitOrderItems text) as [|t ts] eqn:Et; cbn [List.length Nat.eqb].
  - split; reflexivity.
  - split; [|discriminate]. rewrite collect_fold. cbn [fst snd app].
    destruct (resolvedItems (t :: ts)); cbn [List.length Nat.eqb];
      [|discriminate].
    destruct (0 <? List.length (itemErrors (t :: ts)))%nat; discriminate.
Qed.

End Parser.

(** ** Rounding *)

Section Rounding.

Import JS Reference Invariants orderCalculator.

Lemma Qnum_nonneg (x : Q) : 0 <= x <-> (0 <= Qnum x)%Z.
Proof. unfold Qle. cbn. lia. Qed.

(** On non-negative amounts, [Math.round] rounds half away from zero. *)
Lemma roundHalfAway_nonneg (x : Q) : 0 <= x -> roundHalfAway x = Math_round x.
Proof.
  intros H. apply Qnum_nonneg in H. unfold roundHalfAway, Math_round.
  destruct x as [n d]. cbn [Qnum] in *. unfold Qabs.
  destruct n as [|n|n]; [|cbn [Z.sgn Z.abs]; lia|lia].
  cbn [Z.sgn Z.mul]. symmetry.
  assert (E : (0 # d) + (1 # 2) == 1 # 2) by (unfold Qeq, Qplus; cbn; lia).
  now rewrite E.
Qed.

Lemma Math_round_integer (x : Q) (k : Z) : x == inject_Z k -> Math_round x = k.
Proof.
  intros H. unfold Math_round. rewrite H.
  assert (E : inject_Z k + (1 # 2) == (2 * k + 1 # 2)).
  { unfold inject_Z, Qplus, Qeq. cbn [Qnum Qden]. lia. }
  rewrite E. unfold Qfloor. change (Z.pos 2) with 2%Z.
  symmetry. apply (Z.div_unique _ _ _ 1); lia.
Qed.

Lemma roundHalfAway_integer (x : Q) (k : Z) :
  x == inject_Z k -> roundHalfAway x = k.
Proof.
  intros H. unfold roundHalfAway.
  destruct (Z.lt_trichotomy k 0) as [Hk|[Hk|Hk]].
  - assert (Ha : Qabs x == inject_Z (- k)).
    { rewrite H, Qabs_neg; [reflexivity|].
      order_of_integer. }
    pose proof (Math_round_integer (Qabs x) (- k) Ha) as Hr.
    unfold Math_round in Hr. rewrite Hr.
    assert (Hx : x < 0)
      by (rewrite H; order_of_integer).
    unfold Qlt in Hx. cbn in Hx. rewrite Z.sgn_neg by lia. lia.
  - subst k. assert (Hs : Qnum x = 0%Z) by (unfold Qeq in H; cbn in H; lia).
    now rewrite Hs.
  - assert (Ha : Qabs x == inject_Z k).
    { rewrite H. apply Qabs_pos.
      order_of_integer. }
    pose proof (Math_round_integer (Qabs x) k Ha) as Hr.
    unfold Math_round in Hr. rewrite Hr.
    assert (Hx : 0 < x)
      by (rewrite H; order_of_integer).
    unfold Qlt in Hx. cbn in Hx. rewrite Z.sgn_pos by lia. lia.
Qed.

Lemma cents_back (k : Z) (x : Q) : x * 100 == inject_Z k -> inject_Z k / 100 == x.
Proof. intros H. rewrite <- H. field. Qed.

(** Rounding a whole number of cents changes nothing, in the source's
    rounding and in the specification's. *)
Lemma roundCurrency_exact (x : Q) (k : Z) :
  x * 100 == inject_Z k -> roundCurrency x == x.
Proof.
  intros H. unfold roundCurrency.
  rewrite (Math_round_integer _ k H). now apply cents_back.
Qed.

Lemma roundCents_exact (x : Q) (k : Z) :
  x * 100 == inject_Z k -> roundCents x == x.
Proof.
  intros H. unfold roundCents.
  rewrite (roundHalfAway_integer _ k H). now apply cents_back.
Qed.

Lemma roundCurrency_roundCents (x : Q) :
  0 <= x -> roundCurrency x = roundCents x.
Proof.
  intros H. unfold roundCurrency, roundCents.
  rewrite roundHalfAway_nonneg; [reflexivity|lra].
Qed.

Lemma roundCurrency_nonneg (x : Q) : 0 <= x -> 0 <= roundCurrency x.
Proof.
  intros H. unfold roundCurrency, Math_round.
  assert (Hz : (0 <= Qfloor (x * 100 + (1 # 2)))%Z).
  { change 0%Z with (Qfloor 0). apply Qfloor_resp_le. lra. }
  assert (Hq : 0 <= inject_Z (Qfloor (x * 100 + (1 # 2)))).
  { order_of_integer. }
  apply Qle_shift_div_l; lra.
Qed.

Lemma roundCurrency_centPrecise (x : Q) : centPrecise (roundCurrency x).
Proof. eexists. reflexivity. Qed.

Lemma centPrecise_sum (x y : Q) :
  centPrecise x -> centPrecise y -> roundCurrency (x + y) == x + y.
Proof.
  intros [k Hk] [l Hl]. apply (roundCurrency_exact _ (k + l)).
  rewrite Hk, Hl, inject_Z_plus. field.
Qed.

(** Below zero the two roundings part at a tie: [Math.round] goes toward
    plus infinity. *)
Lemma roundCurrency_negative_tie :
  roundCurrency (-0.085) == -0.08 /\ roundCents (-0.085) == -0.09.
Proof. split; vm_compute; reflexivity. Qed.

End Rounding.

(** ** What the item interpreter can produce *)

Section Resolved.

Import JS Reference Invariants messageParser.

Lemma firstSome_some {A B : Type} (f : A -> option B) (xs : list A) (y : B) :
  firstSome f xs = Some y -> exists x, In x xs /\ f x = Some y.
Proof.
  induction xs as [|x xs IH]; cbn [firstSome]; [discriminate|].
  destruct (f x) as [z|] eqn:E.
  - intros [= ->]. exists x. split; [now left|assumption].
  - intros H. destruct (IH H) as (x' & Hin & Hx'). exists x'.
    split; [now right|assumption].
Qed.

Lemma lookup_In {A : Type} (key : string) (dictionary : list (string * A))
  (r : string * A) :
  lookup key dictionary = Some r -> In r dictionary.
Proof.
  induction dictionary as [|[k v] rest IH]; cbn [lookup]; [discriminate|].
  destruct (k =? key)%string.
  - intros [= <-]. now left.
  - intros H. right. now apply IH.
Qed.

(** The matcher returns an entry of the dictionary it was given. *)
Lemma findBestMatch_In {A : Type} (aliasesOf : A -> option (list string))
  (term : string) (dictionary : list (string * A)) (threshold : Q)
  (m : Match A) :
  findBestMatch aliasesOf term dictionary threshold = Some m ->
  In (matchKey m, matchItem m) dictionary.
Proof.
  unfold findBestMatch.
  destruct (scan_spec aliasesOf term dictionary (None, threshold)) as
    [[Heq _]|(pre & key & it & post & Hd & Hm & _)]; cbv zeta in *.
  - rewrite Heq. discriminate.
  - rewrite Hm. intros [= <-]. cbn [matchKey matchItem].
    rewrite Hd. apply in_elt.
Qed.

Lemma firstWordMatch_In (words : list string)
  (dictionary : list (string * Modifier)) (r : string * Modifier) :
  firstWordMatch words dictionary = Some r -> In r dictionary.
Proof.
  unfold firstWordMatch. intros H.
  apply firstSome_some in H. destruct H as (w & _ & Hw).
  destruct (findBestMatch noAliases w dictionary defaultThreshold) as [m|] eqn:E;
    [|discriminate].
  injection Hw as <-. now apply findBestMatch_In in E.
Qed.

Lemma firstContained_In {A : Type} (lowerText : string)
  (dictionary : list (string * A)) (r : string * A) :
  firstContained lowerText dictionary = Some r -> In r dictionary.
Proof.
  unfold firstContained. intros H.
  apply firstSome_some in H. destruct H as (e & Hin & He).
  destruct (includes lowerText (fst e)); [|discriminate].
  now injection He as <-.
Qed.

Lemma extractMenuItem_In (lowerText : string) (words : list string)
  (mi : MenuItem) :
  extractMenuItem lowerText words = Some mi -> In mi (map snd menuItems).
Proof.
  unfold extractMenuItem. cbv zeta.
  destruct (firstSome _ words) as [it|] eqn:E.
  - intros [= <-]. apply firstSome_some in E. destruct E as (w & _ & Hw).
    destruct (String.length w <? 3)%nat; [discriminate|].
    destruct (findBestMatch menuAliases w menuItems defaultThreshold)
      as [m|] eqn:Em; [|discriminate].
    injection Hw as <-. apply findBestMatch_In in Em.
    now apply (in_map snd) in Em.
  - destruct (firstContained lowerText menuItems) as [r|] eqn:Ec;
      [|discriminate].
    intros [= <-]. apply firstContained_In in Ec. now apply in_map.
Qed.

Lemma extractSize_In (words : list string) (r : string * Modifier) :
  extractSize words = Some r -> In (snd r) (map snd sizes).
Proof.
  unfold extractSize. intros H. apply in_map.
  destruct (firstWordMatch words sizes) as [r'|] eqn:E.
  - injection H as <-. now apply firstWordMatch_In in E.
  - now apply lookup_In in H.
Qed.

Lemma extractMilkType_In (lowerText : string) (words : list string)
  (r : string * Modifier) :
  extractMilkType lowerText words = Some r -> In (snd r) (map snd milkTypes).
Proof.
  unfold extractMilkType. cbv zeta. intros H. apply in_map.
  assert (H0 : forall r0,
            match firstContained lowerText milkTypes with
            | Some r1 => Some r1
            | None => lookup "whole milk" milkTypes
            end = Some r0 -> In r0 milkTypes).
  { intros r0 Hr0.
    destruct (firstContained lowerText milkTypes) as [r1|] eqn:E.
    - injection Hr0 as <-. now apply firstContained_In in E.
    - now apply lookup_In in Hr0. }
  destruct (match
               match firstContained lowerText milkTypes with
               | Some r1 => Some r1
               | None => lookup "whole milk" milkTypes
               end
             with
             | Some r0 =>
                 match lookup "whole milk" milkTypes with
                 | Some d => (fst r0 =? fst d)%string
                 | None => false
                 end
             | None =>
                 match lookup "whole milk" milkTypes with
                 | Some _ => false
                 | None => true
                 end
             end).
  - destruct (firstWordMatch words milkTypes) as [r'|] eqn:E.
    + injection H as <-. now apply firstWordMatch_In in E.
    + now apply H0.
  - now apply H0.
Qed.

Lemma digitValue_nonneg (c : ascii) : isDigit c = true -> (0 <= digitValue c)%Z.
Proof.
  unfold isDigit, digitValue. cbv zeta. rewrite andb_true_iff, N.leb_le. lia.
Qed.

Lemma parseInt_go_nonneg (s : string) (acc : Z) :
  (0 <= acc)%Z -> (0 <= parseInt_go acc (leadingDigits s))%Z.
Proof.
  revert acc. induction s as [|c s IH]; intros acc Hacc; cbn [leadingDigits].
  - assumption.
  - destruct (isDigit c) eqn:E; cbn [parseInt_go]; [|assumption].
    apply IH. pose proof (digitValue_nonneg c E). lia.
Qed.

(** The quantity is the value of the leading digits, or 1; it is never
    negative. *)
Lemma extractQuantity_nonneg (lowerText : string) :
  (0 <= extractQuantity lowerText)%Z.
Proof.
  unfold extractQuantity, matchLeadingDigits.
  destruct (leadingDigits lowerText) eqn:E; [lia|].
  rewrite <- E. unfold parseInt. now apply parseInt_go_nonneg.
Qed.

Lemma resolved_inv (it : OrderItem) :
  resolved it ->
  exists mi sz mk q,
    In mi (map snd menuItems) /\ In sz (map snd messageParser.sizes) /\
    In mk (map snd milkTypes) /\ (0 <= q)%Z /\
    it = mkOrderItem mi q (name sz) (name mk)
           ((basePrice mi + priceModifier sz + priceModifier mk) * inject_Z q).
Proof.
  intros [text H]. unfold parseOrderItem, parseOrderItemBody in H.
  cbv zeta in H.
  destruct (extractMenuItem _ _) as [mi|] eqn:Emi; [|discriminate].
  destruct (extractSize _) as [sz|] eqn:Esz; [|discriminate].
  destruct (extractMilkType _ _) as [mk|] eqn:Emk; [|discriminate].
  injection H as <-.
  exists mi, (snd sz), (snd mk), (extractQuantity (toLowerCase text)).
  repeat split.
  - eapply extractMenuItem_In; eassumption.
  - eapply extractSize_In; eassumption.
  - eapply extractMilkType_In; eassumption.
  - apply extractQuantity_nonneg.
Qed.

(** Every combination of the shipped tables is priced in non-negative
    half units, and the dictionaries agree with the option lists of the
    menu items. *)
Lemma pricing_table :
  forallb
    (fun mi =>
       forallb
         (fun sz => forallb (consistentPricing mi sz) (map snd milkTypes))
         (map snd messageParser.sizes))
    (map snd menuItems) = true.
Proof. vm_compute. reflexivity. Qed.

Lemma resolved_lineTotal (it : OrderItem) :
  resolved it -> itemTotal it == lineTotal it /\ 0 <= itemTotal it.
Proof.
  intros H. destruct (resolved_inv it H) as
    (mi & sz & mk & q & Hmi & Hsz & Hmk & Hq & ->).
  pose proof pricing_table as T.
  rewrite forallb_forall in T. specialize (T mi Hmi).
  rewrite forallb_forall in T. specialize (T sz Hsz).
  rewrite forallb_forall in T. specialize (T mk Hmk).
  unfold consistentPricing in T.
  rewrite !andb_true_iff, !Qeq_bool_iff, Z.leb_le in T.
  destruct T as [[[Hunit Hk] Hds] Hdm].
  unfold lineTotal. cbn [itemTotal quantity menuItem size milkType].
  set (k := unitHalves mi sz mk) in *.
  assert (Hpos : 0 <= inject_Z k) by
    order_of_integer.
  assert (Hqpos : 0 <= inject_Z q) by
    order_of_integer.
  split.
  - rewrite (roundCents_exact _ (q * k * 50)).
    + rewrite Hds, Hdm. ring.
    + rewrite Hds, Hdm, Hunit, !inject_Z_mult. field.
  - rewrite Hunit. apply Qmult_le_0_compat; [|assumption].
    apply Qle_shift_div_l; lra.
Qed.

(** The quantity of a resolved item is the value of the leading run of
    digits of the text, 1 when the text does not begin with a digit. *)
Lemma parseOrderItem_quantity (text : string) (it : OrderItem) :
  parseOrderItem text = mkItemResult true (Some it) None ->
  quantity it =
    match leadingDigits (toLowerCase text) with
    | EmptyString => 1%Z
    | digits => parseInt digits
    end /\
  (0 <= quantity it)%Z.
Proof.
  intros H. unfold parseOrderItem, parseOrderItemBody in H. cbv zeta in H.
  destruct (extractMenuItem _ _) as [mi|]; [|discriminate].
  destruct (extractSize _) as [sz|]; [|discriminate].
  destruct (extractMilkType _ _) as [mk|]; [|discriminate].
  injection H as <-. cbn [quantity]. split; [|apply extractQuantity_nonneg].
  unfold extractQuantity, matchLeadingDigits.
  now destruct (leadingDigits (toLowerCase text)).
Qed.

End Resolved.

(** ** Pricing *)

Section Pricing.

Import JS Reference Invariants messageParser orderCalculator.

(** On items with non-negative totals the running sum of the source is the
    running sum of the specification; it is never negative. *)
Lemma subtotal_fold (its : list OrderItem) (t : Q) :
  Forall (fun it => 0 <= itemTotal it) its -> 0 <= t ->
  fold_left (fun total it => roundCurrency (total + itemTotal it)) its t =
  fold_left (fun total it => roundCents (total + itemTotal it)) its t /\
  0 <= fold_left (fun total it => roundCurrency (total + itemTotal it)) its t.
Proof.
  intros Hall. revert t.
  induction Hall as [|it its Hit _ IH]; intros t Ht; cbn [fold_left].
  - now split.
  - assert (Hsum : 0 <= t + itemTotal it) by lra.
    rewrite <- (roundCurrency_roundCents _ Hsum).
    apply IH. now apply roundCurrency_nonneg.
Qed.

Lemma subtotal_centPrecise (its : list OrderItem) (t : Q) :
  centPrecise t ->
  centPrecise
    (fold_left (fun total it => roundCurrency (total + itemTotal it)) its t).
Proof.
  revert t. induction its as [|it its IH]; intros t Ht; cbn [fold_left].
  - assumption.
  - apply IH, roundCurrency_centPrecise.
Qed.

End Pricing.

(** ** Agreement with binary64 arithmetic *)

Section Doubles.

Import orderCalculator.

(** The figures of the first scenario, on doubles. *)
Lemma binary64_scenario :
  let subtotal := Binary64.ofCents 4.50 in
  PrimFloat.eqb (Binary64.calculateTax subtotal) (Binary64.ofCents 0.38)
  && PrimFloat.eqb (Binary64.orderTotal subtotal) (Binary64.ofCents 4.88)
  = true.
Proof. vm_compute. reflexivity. Qed.

End Doubles.

(** ** Strings *)

Section Strings.

Lemma append_length (s t : string) :
  String.length (s ++ t) = (String.length s + String.length t)%nat.
Proof. induction s as [|c s IH]; cbn; congruence. Qed.

Lemma append_cancel_l (s t u : string) : (s ++ t = s ++ u)%string -> t = u.
Proof. induction s as [|c s IH]; cbn; [trivial|]. intros [= H]. auto. Qed.

Lemma append_cancel_r (s t u : string) : (t ++ s = u ++ s)%string -> t = u.
Proof.
  revert u. induction t as [|c t IH]; intros [|d u] H; cbn in H.
  - reflexivity.
  - apply (f_equal String.length) in H. cbn in H.
    rewrite append_length in H. lia.
  - apply (f_equal String.length) in H. cbn in H.
    rewrite append_length in H. lia.
  - injection H as -> H. f_equal. now apply IH.
Qed.

End Strings.

(** ** Order text splitter *)

Section Splitter.

Import JS Reference messageParser.

Lemma split_go_skip (sep t rest cur : string) :
  split_go sep (String.length t) cur (t ++ rest) = split_go sep 0 cur rest.
Proof. induction t as [|c t IH]; cbn; [reflexivity|assumption]. Qed.

Lemma split_go_nonempty (sep s cur : string) (k : nat) :
  split_go sep k cur s <> [].
Proof.
  revert k cur. induction s as [|c s IH]; intros k cur; cbn [split_go].
  - discriminate.
  - destruct k; [|apply IH].
    destruct (String.prefix sep (String c s)); [discriminate|apply IH].
Qed.

Lemma concat_cons (sep x : string) (xs : list string) :
  xs <> [] ->
  String.concat sep (x :: xs) = (x ++ sep ++ String.concat sep xs)%string.
Proof. destruct xs; [congruence|reflexivity]. Qed.

Lemma split_go_join (sep : string) (n : nat) :
  sep <> "" ->
  forall s cur, (String.length s <= n)%nat ->
    String.concat sep (split_go sep 0 cur s) = (cur ++ s)%string.
Proof.
  intros Hsep. induction n as [|n IH]; intros s cur Hn.
  - destruct s; [|cbn in Hn; lia]. cbn.
    clear. induction cur; cbn; congruence.
  - destruct s as [|c s]; [cbn; clear; induction cur; cbn; congruence|].
    cbn [split_go].
    destruct (String.prefix sep (String c s)) eqn:Ep.
    + apply prefix_iff in Ep. destruct Ep as [rest Hrest].
      destruct sep as [|d sep]; [congruence|].
      cbn in Hrest. injection Hrest as <- ->.
      replace (String.length (String c sep) - 1)%nat with (String.length sep)
        by (cbn [String.length]; lia).
      rewrite split_go_skip, concat_cons by apply split_go_nonempty.
      rewrite IH; [reflexivity|].
      cbn in Hn. rewrite append_length in Hn. lia.
    + rewrite IH by (cbn in Hn; lia).
      clear. induction cur; cbn; congruence.
Qed.

(** Joining the pieces of a split with the separator gives the text
    back. *)
Lemma split_join (s sep : string) :
  sep <> "" -> join sep (split s sep) = s.
Proof.
  intros Hsep. unfold join, split.
  now rewrite (split_go_join sep (String.length s) Hsep s "").
Qed.

Lemma trimEnd_lastChar (s : string) :
  match lastChar (trimEnd s) with
  | Some d => isWhiteSpace d = false
  | None => trimEnd s = ""
  end.
Proof.
  induction s as [|c s IH]; cbn [trimEnd]; [reflexivity|]. cbv zeta.
  destruct (trimEnd s) as [|e t] eqn:Et.
  - cbn [String.eqb andb]. rewrite andb_true_r.
    destruct (isWhiteSpace c) eqn:Ec; cbn; [reflexivity|assumption].
  - rewrite andb_false_r. cbn [lastChar] in *.
    destruct (lastChar t); assumption.
Qed.

Lemma trimStart_firstChar (s : string) :
  match firstChar (trimStart s) with
  | Some c => isWhiteSpace c = false
  | None => trimStart s = ""
  end.
Proof.
  induction s as [|c s IH]; cbn [trimStart]; [reflexivity|].
  destruct (isWhiteSpace c) eqn:Ec; [assumption|]. cbn. assumption.
Qed.

(** A trimmed string is empty, or begins and ends with a character that
    is not white space. *)
Lemma trim_trimmed (s : string) :
  trim s = "" \/ trimmedNonEmpty (trim s) = true.
Proof.
  unfold trim. pose proof (trimStart_firstChar s) as Hs.
  destruct (trimStart s) as [|c t]; [now left|]. cbn [firstChar] in Hs.
  right. unfold trimmedNonEmpty.
  pose proof (trimEnd_lastChar (String c t)) as He.
  cbn [trimEnd] in *. cbv zeta in *. rewrite Hs in *. cbn [andb] in *.
  cbn [firstChar]. destruct (lastChar (String c (trimEnd t))) as [d|].
  - now rewrite Hs, He.
  - discriminate.
Qed.

Lemma trimmed_pieces (xs : list string) :
  Forall (fun s => trimmedNonEmpty s = true) (filter nonEmpty (map trim xs)).
Proof.
  induction xs as [|x xs IH]; cbn [map filter]; [constructor|].
  destruct (trim_trimmed x) as [E|E].
  - rewrite E. cbn. assumption.
  - destruct (nonEmpty (trim x)); [now constructor|assumption].
Qed.

(** One round of the outer loop, item by item. *)
Lemma splitBy_flat_map (separator : string) (texts acc : list string) :
  fold_left
    (fun newItems it =>
       if includes it separator
       then newItems ++ filter nonEmpty (map trim (split it separator))
       else newItems ++ [it])
    texts acc =
  acc ++ flat_map
           (fun it =>
              if includes it separator
              then filter nonEmpty (map trim (split it separator))
              else [it])
           texts.
Proof.
  revert acc. induction texts as [|t ts IH]; intro acc; cbn [fold_left flat_map].
  - now rewrite app_nil_r.
  - rewrite IH. destruct (includes t separator); now rewrite <- app_assoc.
Qed.

Lemma splitBy_trimmed (separator : string) (texts : list string) :
  Forall (fun s => trimmedNonEmpty s = true) texts ->
  Forall (fun s => trimmedNonEmpty s = true) (splitBy separator texts).
Proof.
  intros H. unfold splitBy. rewrite splitBy_flat_map. cbn [app].
  induction H as [|t ts Ht _ IH]; cbn [flat_map]; [constructor|].
  apply Forall_app. split; [|assumption].
  destruct (includes t separator); [apply trimmed_pieces|now constructor].
Qed.

Lemma splitBy_single (separator text : string) :
  splitBy separator [text] =
  if includes text separator
  then filter nonEmpty (map trim (split text separator))
  else [text].
Proof.
  unfold splitBy. cbn [fold_left app].
  destruct (includes text separator); reflexivity.
Qed.

(** What the splitter does guarantee: as soon as the text contains one of
    the separators, every item returned is non-empty and has no white space
    at either end. *)
Lemma splitOrderItems_separated (text : string) :
  existsb (includes text) separators = true ->
  Forall (fun s => trimmedNonEmpty s = true) (splitOrderItems text).
Proof.
  unfold splitOrderItems, separators. cbn [existsb fold_left].
  rewrite !(splitBy_single _ text).
  destruct (includes text ",").
  { intros _. repeat apply splitBy_trimmed. apply trimmed_pieces. }
  rewrite !(splitBy_single _ text).
  destruct (includes text " and ").
  { intros _. repeat apply splitBy_trimmed. apply trimmed_pieces. }
  rewrite !(splitBy_single _ text).
  destruct (includes text ";").
  { intros _. repeat apply splitBy_trimmed. apply trimmed_pieces. }
  rewrite !(splitBy_single _ text).
  destruct (includes text "+"); [|discriminate].
  intros _. apply trimmed_pieces.
Qed.

(** A text without any separator is returned as the only item, as it is. *)
Lemma splitOrderItems_unseparated (text : string) :
  existsb (includes text) separators = false ->
  splitOrderItems text = [text].
Proof.
  unfold splitOrderItems, separators. cbn [existsb fold_left].
  rewrite !orb_false_iff. intros (H1 & H2 & H3 & H4 & _).
  now rewrite splitBy_single, H1, splitBy_single, H2, splitBy_single, H3,
    splitBy_single, H4.
Qed.

End Splitter.

(** ** Order identifiers *)

Section Identifiers.

Import JS orderCalculator.

(** For one customer, two readings of the clock give the same identifier
    exactly when their last six digits agree. *)
Lemma generateOrderId_same_iff (now1 now2 : N) (customerId : string) :
  generateOrderId now1 customerId = generateOrderId now2 customerId <->
  sliceLast 6 (toStringN now1) = sliceLast 6 (toStringN now2).
Proof.
  unfold generateOrderId. cbv zeta. split.
  - intros H. apply append_cancel_l in H. now apply append_cancel_r in H.
  - now intros ->.
Qed.

End Identifiers.

(** ** Scenarios *)

Section Scenarios.

Import JS Reference messageParser orderCalculator.

(** C8. For "1 espresso" the parse fails, and the error it carries is the
    item-not-found message, which lists the canonical menu names Cappuccino
    and Latte as the available items. *)
Theorem parseOrder_espresso :
  parseOrder "1 espresso" =
    orderFailure ("Failed to parse order: " ++ menuItemNotFound)%string /\
  parseOrderItem "1 espresso" = itemFailure menuItemNotFound /\
  menuItemNotFound =
    ("Menu item not found. Available items: "
     ++ join ", " ["Cappuccino"; "Latte"])%string /\
  map (fun e => itemName (snd e)) menuItems = ["Cappuccino"; "Latte"].
Proof. repeat split; vm_compute; reflexivity. Qed.

(** C10. "1 latte" names no size, yet its size resolves to Large and the
    line total to 4.50 instead of the Medium default at 4.00: the token
    "latte" contains the size key "l", which scores 0.9, above the
    threshold of 0.7. *)
Theorem latte_resolves_large :
  (exists it,
     parseOrderItem "1 latte" = mkItemResult true (Some it) None /\
     itemName (menuItem it) = "Latte" /\ quantity it = 1%Z /\
     size it = "Large" /\ milkType it = "Whole Milk" /\
     itemTotal it == 4.50) /\
  Forall (fun w => lookup w messageParser.sizes = None)
         (splitWhitespace (toLowerCase "1 latte")) /\
  includes "latte" "l" = true /\
  calculateSimilarity "latte" "l" == 0.9 /\
  defaultThreshold == 0.7 /\
  (exists m,
     findBestMatch noAliases "latte" messageParser.sizes defaultThreshold
       = Some m /\
     matchKey m = "l" /\ name (matchItem m) = "Large" /\
     priceModifier (matchItem m) == 0.50 /\ score m == 0.9) /\
  (exists d,
     lookup "medium" messageParser.sizes = Some d /\
     name (snd d) = "Medium" /\ 4.00 + priceModifier (snd d) + 0 == 4.00).
Proof.
  split; [|split; [|split; [|split; [|split; [|split]]]]].
  - eexists. split; [vm_compute; reflexivity|].
    repeat (split; [reflexivity|]). vm_compute. reflexivity.
  - vm_compute. repeat constructor.
  - vm_compute. reflexivity.
  - vm_compute. reflexivity.
  - reflexivity.
  - eexists. split; [vm_compute; reflexivity|].
    repeat (split; [reflexivity|]). split; vm_compute; reflexivity.
  - eexists. split; [vm_compute; reflexivity|].
    split; [reflexivity|]. vm_compute. reflexivity.
Qed.

(** The priced scenarios of section 8 of the specification: subtotal, tax
    and total of each order. *)
Lemma scenarios_priced (idClock readyClock : N) (customer : Customer) :
  let price text :=
    option_map
      (fun l =>
         let o := createOrder idClock readyClock l customer in
         (List.length l, Qred (subtotal o), Qred (tax o), Qred (total o)))
      (parsedItems (parseOrder text)) in
  price "1 large cappuccino with oat milk"
    = Some (1%nat, Qred 4.50, Qred 0.38, Qred 4.88) /\
  price "2 medium lattes, 1 small cappuccino"
    = Some (2%nat, Qred 11.00, Qred 0.94, Qred 11.94) /\
  price "1 large cap with oat milk"
    = Some (1%nat, Qred 4.50, Qred 0.38, Qred 4.88) /\
  price "1 cappuccino" = Some (1%nat, Qred 3.50, Qred 0.30, Qred 3.80) /\
  price "blah blah blah" = None.
Proof. cbv zeta. repeat split; vm_compute; reflexivity. Qed.

(** A tie at work: "e" is contained in the keys "medium", "large" and
    "regular", which all score 0.9; the first of them is returned. *)
Lemma findBestMatch_tie_example :
  option_map matchKey
    (findBestMatch noAliases "e" messageParser.sizes defaultThreshold)
  = Some "medium" /\
  map (fun e =>
         Qeq_bool (entryScore noAliases "e" e) 0.9)
      messageParser.sizes
  = [false; true; true; false; false; false; true; false; false].
Proof. split; vm_compute; reflexivity. Qed.

(** C7, at an input where it fails: "0 latte" resolves to an item whose
    quantity is zero. *)
Theorem parseOrderItem_zero_quantity :
  exists it,
    parseOrderItem "0 latte" = mkItemResult true (Some it) None /\
    itemName (menuItem it) = "Latte" /\ quantity it = 0%Z /\
    itemTotal it == 0.
Proof.
  eexists. split; [vm_compute; reflexivity|].
  repeat (split; [reflexivity|]). vm_compute. reflexivity.
Qed.

(** C9, at inputs where it fails: two readings of the clock that are a
    thousand seconds apart give the same identifier, whoever the customer
    is; so does a clock that has not advanced between two calls, the
    identifier being a function of the reading and the customer alone. *)
Theorem generateOrderId_collision :
  generateOrderId 1700000000123 "123456789" = "ORD-000123-789" /\
  generateOrderId 1700001000123 "123456789" = "ORD-000123-789" /\
  (forall customerId,
     generateOrderId 1700000000123 customerId =
     generateOrderId 1700001000123 customerId).
Proof.
  split; [|split]; try (vm_compute; reflexivity).
Qed.

(** C2, at inputs where it fails: a text without a separator comes back
    as it is, be it empty, blank or padded with white space. *)
Theorem splitOrderItems_unsplit :
  splitOrderItems "" = [""] /\
  splitOrderItems "   " = ["   "] /\
  splitOrderItems "  1 latte " = ["  1 latte "].
Proof. repeat split; vm_compute; reflexivity. Qed.

(** C3, at inputs where it fails: the empty and the blank message are
    answered with the item-not-found error, not with the request to
    specify an item. *)
Theorem parseOrder_blank :
  parseOrder "" =
    orderFailure ("Failed to parse order: " ++ menuItemNotFound)%string /\
  parseOrder "   " =
    orderFailure ("Failed to parse order: " ++ menuItemNotFound)%string /\
  parseOrder "," = orderFailure specifyAtLeastOne.
Proof. repeat split; vm_compute; reflexivity. Qed.

End Scenarios.

(** * Further properties of the code *)

(** ** The distance the matrix computes *)

Section Distance.

Import JS Reference Invariants messageParser.

Lemma levenshtein_zero (a b : list ascii) : levenshtein a b = 0%nat -> a = b.
Proof.
  revert b. induction a as [|x a IHa]; intros [|y b] H.
  - reflexivity.
  - rewrite levenshtein_nil_l in H. discriminate.
  - rewrite levenshtein_nil_r in H. discriminate.
  - rewrite levenshtein_cons in H. unfold Math_min3, substitutionCost in H.
    destruct (Ascii.eqb_spec x y) as [->|_]; [|lia].
    f_equal. apply IHa. lia.
Qed.

Lemma levenshtein_length_gap (a b : list ascii) :
  (List.length a - List.length b <= levenshtein a b)%nat.
Proof.
  revert b. induction a as [|x a IHa]; intro b; [cbn; lia|].
  induction b as [|y b IHb].
  - rewrite levenshtein_nil_r. lia.
  - rewrite levenshtein_cons. unfold Math_min3.
    pose proof (IHa (y :: b)). pose proof (IHa b).
    cbn [List.length] in *. lia.
Qed.

(** Two scripts in a row make a script, no longer than the two together. *)
Lemma editScript_compose (a b : list ascii) (n : nat) :
  editScript a b n ->
  forall c m, editScript b c m ->
  exists k, (k <= n + m)%nat /\ editScript a c k.
Proof.
  induction 1 as [|x a b n _ IH|x y a b n _ IH|x a b n _ IH|y a b n Hab IH].
  - intros c m H. exists m. split; [lia|assumption].
  - intros c m H. remember (x :: b) as xb eqn:E. revert E.
    induction H as [|x' b' c' m' H' _|x' y' b' c' m' H' _|x' b' c' m' H' _
                   |y' b' c' m' H' IH'];
      intros E; try discriminate.
    + injection E as -> ->. destruct (IH _ _ H') as (k & Hk & Hs).
      exists k. split; [lia|now constructor].
    + injection E as -> ->. destruct (IH _ _ H') as (k & Hk & Hs).
      exists (S k). split; [lia|now constructor].
    + injection E as -> ->. destruct (IH _ _ H') as (k & Hk & Hs).
      exists (S k). split; [lia|now constructor].
    + destruct (IH' E) as (k & Hk & Hs).
      exists (S k). split; [lia|now constructor].
  - intros c m H. remember (y :: b) as yb eqn:E. revert E.
    induction H as [|x' b' c' m' H' _|x' y' b' c' m' H' _|x' b' c' m' H' _
                   |y' b' c' m' H' IH'];
      intros E; try discriminate.
    + injection E as -> ->. destruct (IH _ _ H') as (k & Hk & Hs).
      exists (S k). split; [lia|now constructor].
    + injection E as -> ->. destruct (IH _ _ H') as (k & Hk & Hs).
      exists (S k). split; [lia|now constructor].
    + injection E as -> ->. destruct (IH _ _ H') as (k & Hk & Hs).
      exists (S k). split; [lia|now constructor].
    + destruct (IH' E) as (k & Hk & Hs).
      exists (S k). split; [lia|now constructor].
  - intros c m H. destruct (IH _ _ H) as (k & Hk & Hs).
    exists (S k). split; [lia|now constructor].
  - intros c m H. remember (y :: b) as yb eqn:E. revert E.
    induction H as [|x' b' c' m' H' _|x' y' b' c' m' H' _|x' b' c' m' H' _
                   |y' b' c' m' H' IH'];
      intros E; try discriminate.
    + injection E as -> ->. destruct (IH _ _ H') as (k & Hk & Hs).
      exists (S k). split; [lia|now constructor].
    + injection E as -> ->. destruct (IH _ _ H') as (k & Hk & Hs).
      exists (S k). split; [lia|now constructor].
    + injection E as -> ->. destruct (IH _ _ H') as (k & Hk & Hs).
      exists k. split; [lia|assumption].
    + destruct (IH' E) as (k & Hk & Hs).
      exists (S k). split; [lia|now constructor].
Qed.

Lemma levenshtein_triangle (a b c : list ascii) :
  (levenshtein a c <= levenshtein a b + levenshtein b c)%nat.
Proof.
  destruct (editScript_compose a b _ (levenshtein_script a b)
              c _ (levenshtein_script b c)) as (k & Hk & Hs).
  apply levenshtein_least in Hs. lia.
Qed.

(** The state of the matrix when the loops are over. *)
Lemma levenshteinMatrix_tableau (a b : list ascii) :
  tableau a b (List.length a) (S (List.length b)) (levenshteinMatrix a b).
Proof.
  unfold levenshteinMatrix. cbv zeta.
  apply (fillMatrix_spec a b (List.length a) 0); [lia|].
  pose proof (initRows_spec (S (List.length a)) 0) as Hinit.
  change (fold_left (fun m i => arraySet [] m i [i])
            (seq 0 (S (List.length a))) [] =
          map (fun i => [i]) (seq 0 (S (List.length a)))) in Hinit.
  rewrite Hinit.
  pose proof (tableau_initRows a b) as H0.
  change (seq 0 (S (List.length b))) with (0%nat :: seq 1 (List.length b)).
  cbn [fold_left]. rewrite (firstRow_rewrite a b _ H0).
  apply firstRow_spec; [lia|lia|exact H0].
Qed.

(** X1. When the loops are over the matrix has one row per prefix of the
    first string, each row has one cell per prefix of the second, and the
    cell in row [i], column [j] holds the edit distance between the first
    [i] characters of the one and the first [j] characters of the other. *)
Theorem levenshteinMatrix_cells (a b : list ascii) (i j : nat) :
  (i <= List.length a)%nat -> (j <= List.length b)%nat ->
  List.length (levenshteinMatrix a b) = S (List.length a) /\
  List.length (nth i (levenshteinMatrix a b) []) = S (List.length b) /\
  cell (levenshteinMatrix a b) i j = levenshtein (firstn i a) (firstn j b).
Proof.
  intros Hi Hj.
  destruct (levenshteinMatrix_tableau a b) as (Hlen & Habove & Hrow & _).
  assert (Hr : rowFilled a b i (S (List.length b))
                 (nth i (levenshteinMatrix a b) [])).
  { destruct (Nat.eq_dec i (List.length a)) as [->|Hne];
      [exact Hrow|apply Habove; lia]. }
  split; [exact Hlen|]. split; [apply Hr|].
  apply (cell_rowFilled a b _ _ (S (List.length b))); [exact Hr|lia].
Qed.

Lemma levenshteinMatrix_cells_witness :
  let a := list_ascii_of_string "latte" in
  let b := list_ascii_of_string "large" in
  (2 <= List.length a)%nat /\ (3 <= List.length b)%nat /\
  List.length (levenshteinMatrix a b) = S (List.length a) /\
  List.length (nth 2 (levenshteinMatrix a b) []) = S (List.length b) /\
  cell (levenshteinMatrix a b) 2 3 = levenshtein (firstn 2 a) (firstn 3 b).
Proof.
  cbv zeta. split; [cbn; lia|]. split; [cbn; lia|].
  apply (levenshteinMatrix_cells (list_ascii_of_string "latte")
           (list_ascii_of_string "large") 2 3); cbn; lia.
Defined.

(** X2. The distance read from the last cell of the matrix is a metric
    on strings: it is zero exactly for equal strings, it does not depend on
    the order of the two strings, and it obeys the triangle inequality.
    It is at least the difference of the two lengths and at most the
    greater of them. *)
Theorem levenshteinMatrix_metric (a b c : list ascii) :
  let d x y := cell (levenshteinMatrix x y) (List.length x) (List.length y) in
  (d a b = 0%nat <-> a = b) /\
  d a b = d b a /\
  (d a c <= d a b + d b c)%nat /\
  (List.length a - List.length b <= d a b)%nat /\
  (List.length b - List.length a <= d a b)%nat /\
  (d a b <= Nat.max (List.length a) (List.length b))%nat.
Proof.
  cbv beta zeta. rewrite !levenshteinMatrix_spec.
  split; [|split; [|split; [|split; [|split]]]].
  - split; [apply levenshtein_zero|intros ->; apply levenshtein_refl].
  - apply levenshtein_sym.
  - apply levenshtein_triangle.
  - apply levenshtein_length_gap.
  - rewrite levenshtein_sym. apply levenshtein_length_gap.
  - apply levenshtein_le_max.
Qed.

End Distance.

(** ** More on the similarity scorer *)

Section SimilarityMore.

Import JS Reference Invariants messageParser.

Lemma lowerChar_idempotent (c : ascii) : lowerChar (lowerChar c) = lowerChar c.
Proof.
  destruct c as [[] [] [] [] [] [] [] []]; vm_compute; reflexivity.
Qed.

Lemma toLowerCase_idempotent (s : string) :
  toLowerCase (toLowerCase s) = toLowerCase s.
Proof.
  induction s as [|c s IH]; cbn [toLowerCase]; [reflexivity|].
  now rewrite lowerChar_idempotent, IH.
Qed.

Lemma list_ascii_of_string_inj (s t : string) :
  list_ascii_of_string s = list_ascii_of_string t -> s = t.
Proof.
  intros H. apply (f_equal string_of_list_ascii) in H.
  now rewrite !string_of_list_ascii_of_string in H.
Qed.

Lemma calculateSimilarity_bounds (a b : string) :
  0 <= calculateSimilarity a b <= 1.
Proof.
  rewrite calculateSimilarity_similarity. unfold similarity. cbv zeta.
  destruct (toLowerCase a =? toLowerCase b)%string; [split; discriminate|].
  destruct (includes _ _ || includes _ _); [split; discriminate|].
  apply ofNat_ratio_bounds, levenshtein_le_max.
Qed.

(** X3. The score is 1 exactly when the two strings are equal once
    lowercased; every other pair scores strictly less. *)
Theorem calculateSimilarity_one_iff (a b : string) :
  calculateSimilarity a b == 1 <-> toLowerCase a = toLowerCase b.
Proof.
  rewrite calculateSimilarity_similarity. unfold similarity. cbv zeta.
  destruct (String.eqb_spec (toLowerCase a) (toLowerCase b)) as [E|E].
  - split; [intros _; exact E|reflexivity].
  - split; [|contradiction]. intros H. exfalso. apply E.
    destruct (includes _ _ || includes _ _) eqn:Ei; [discriminate H|].
    pose proof (calculateSimilarity_divisor _ _ Ei) as Hm.
    set (d := levenshtein _ _) in *. set (m := Nat.max _ _) in *.
    assert (Hd : d = 0%nat).
    { destruct d as [|d]; [reflexivity|]. exfalso.
      assert (Hpos : 0 < ofNat (S d) / ofNat m).
      { apply Qlt_shift_div_l; unfold ofNat; [order_of_integer|].
        rewrite Qmult_0_l. order_of_integer. }
      lra. }
    apply list_ascii_of_string_inj, levenshtein_zero. exact Hd.
Qed.

(** X4. The score ignores case: lowercasing either argument beforehand
    changes nothing. *)
Theorem calculateSimilarity_ignores_case (a b : string) :
  calculateSimilarity (toLowerCase a) b = calculateSimilarity a b /\
  calculateSimilarity a (toLowerCase b) = calculateSimilarity a b.
Proof.
  unfold calculateSimilarity. cbv zeta.
  now rewrite !toLowerCase_idempotent.
Qed.

(** The empty string is contained in every string: against a term that
    is empty, every candidate scores 0.9 or 1. *)
Lemma calculateSimilarity_empty_term (b : string) :
  0.9 <= calculateSimilarity "" b.
Proof.
  unfold calculateSimilarity. cbv zeta. cbn [toLowerCase].
  destruct ("" =? toLowerCase b)%string; [discriminate|].
  rewrite (includes_empty (toLowerCase b)), orb_true_r. discriminate.
Qed.

End SimilarityMore.

(** ** More on the lexicon matcher *)

Section MatcherMore.

Import JS Reference Invariants messageParser.

Context {A : Type}.

Variable aliasesOf : A -> option (list string).

Lemma fold_Qmax_member (qs : list Q) (q0 q : Q) :
  In q (q0 :: qs) -> q <= fold_left Qmax qs q0.
Proof.
  revert q0. induction qs as [|x qs IH]; intros q0 Hin; cbn [fold_left].
  - destruct Hin as [->|[]]. lra.
  - destruct Hin as [->|[->|Hin]].
    + eapply Qle_trans; [apply Q.le_max_l|apply fold_Qmax_seed].
    + eapply Qle_trans; [apply Q.le_max_r|apply fold_Qmax_seed].
    + apply IH. now right.
Qed.

Lemma fold_Qmax_bound (qs : list Q) (q0 u : Q) :
  q0 <= u -> Forall (fun q => q <= u) qs -> fold_left Qmax qs q0 <= u.
Proof.
  intros H0 Hall. revert q0 H0.
  induction Hall as [|x qs Hx _ IH]; intros q0 H0; cbn [fold_left].
  - assumption.
  - apply IH. now apply Q.max_lub.
Qed.

(** The score of an entry is at least the score of each of its
    candidates, the key and the aliases, and at most 1. *)
Lemma entryScore_candidate (term key : string) (it : A) (c : string) :
  In c (key :: match aliasesOf it with Some als => als | None => [] end) ->
  calculateSimilarity term c <= entryScore aliasesOf term (key, it).
Proof.
  intros Hin. unfold entryScore. cbn [fst snd].
  apply fold_Qmax_member.
  change (In (calculateSimilarity term c)
            (map (calculateSimilarity term)
               (key :: match aliasesOf it with
                       | Some als => als
                       | None => []
                       end))).
  now apply in_map.
Qed.

Lemma entryScore_le_one (term : string) (e : string * A) :
  entryScore aliasesOf term e <= 1.
Proof.
  unfold entryScore. apply fold_Qmax_bound.
  - apply calculateSimilarity_bounds.
  - apply Forall_forall. intros q Hq. apply in_map_iff in Hq.
    destruct Hq as (c & <- & _). apply calculateSimilarity_bounds.
Qed.

(** X5. With a threshold of 1 or more nothing is ever matched, since no
    score exceeds 1. *)
Theorem findBestMatch_threshold_one (term : string)
  (dictionary : list (string * A)) (threshold : Q) :
  1 <= threshold ->
  findBestMatch aliasesOf term dictionary threshold = None.
Proof.
  intros Ht. unfold findBestMatch.
  destruct (scan_spec aliasesOf term dictionary (None, threshold)) as
    [[Heq _]|(pre & key & it & post & _ & _ & Hlt & Hs & _)]; cbv zeta in *.
  - now rewrite Heq.
  - exfalso. cbn [snd] in Hlt.
    pose proof (entryScore_le_one term (key, it)). lra.
Qed.

(** X6. When the term equals, case aside, the key or an alias of some
    entry and the threshold is below 1, a match is returned and its score
    is 1. *)
Theorem findBestMatch_exact (term : string)
  (dictionary : list (string * A)) (threshold : Q)
  (key : string) (it : A) (c : string) :
  In (key, it) dictionary ->
  In c (key :: match aliasesOf it with Some als => als | None => [] end) ->
  toLowerCase term = toLowerCase c ->
  threshold < 1 ->
  exists m,
    findBestMatch aliasesOf term dictionary threshold = Some m /\
    score m == 1.
Proof.
  intros Hin Hc Heq Ht.
  assert (Hone : 1 <= entryScore aliasesOf term (key, it)).
  { eapply Qle_trans; [|apply (entryScore_candidate term key it c Hc)].
    apply calculateSimilarity_one_iff in Heq. lra. }
  unfold findBestMatch.
  destruct (scan_spec aliasesOf term dictionary (None, threshold)) as
    [[_ Hall]|(pre & k & v & post & Hd & Hm & Hlt & Hs & Hpre & Hpost)];
    cbv zeta in *.
  - exfalso. rewrite Forall_forall in Hall. specialize (Hall _ Hin).
    cbn [snd] in Hall. lra.
  - rewrite Hm. eexists. split; [reflexivity|]. cbn [score].
    apply Qle_antisym.
    + rewrite Hs. apply entryScore_le_one.
    + rewrite Hd in Hin. apply in_app_or in Hin.
      rewrite Forall_forall in Hpre, Hpost.
      destruct Hin as [Hin|[Hin|Hin]].
      * specialize (Hpre _ Hin). cbn beta in Hpre. lra.
      * injection Hin as <- <-. rewrite Hs. exact Hone.
      * specialize (Hpost _ Hin). cbn beta in Hpost. lra.
Qed.

(** X7. A term that is empty matches in every dictionary that is not
    empty, as long as the threshold is below 0.9: the empty string is
    contained in every key. *)
Theorem findBestMatch_empty_term (dictionary : list (string * A))
  (threshold : Q) :
  dictionary <> [] -> threshold < 0.9 ->
  exists m,
    findBestMatch aliasesOf "" dictionary threshold = Some m /\
    0.9 <= score m.
Proof.
  intros Hd Ht.
  assert (Hall : Forall (fun e => 0.9 <= entryScore aliasesOf "" e) dictionary).
  { apply Forall_forall. intros [k v] _.
    eapply Qle_trans; [apply (calculateSimilarity_empty_term k)|].
    apply entryScore_candidate. now left. }
  unfold findBestMatch.
  destruct (scan_spec aliasesOf "" dictionary (None, threshold)) as
    [[_ Hle]|(pre & k & v & post & Hdict & Hm & Hlt & Hs & _)];
    cbv zeta in *.
  - exfalso. destruct dictionary as [|e rest]; [congruence|].
    inversion Hall as [|? ? H1 _]. inversion Hle as [|? ? H2 _]. subst.
    cbn [snd] in H2. lra.
  - rewrite Hm. eexists. split; [reflexivity|]. cbn [score].
    rewrite Hs. rewrite Forall_forall in Hall. apply Hall.
    rewrite Hdict. apply in_elt.
Qed.

End MatcherMore.

Section MatcherWitnesses.

Import JS Reference messageParser.

Lemma findBestMatch_threshold_one_witness :
  1 <= 1 /\ findBestMatch menuAliases "latte" menuItems 1 = None.
Proof.
  split; [discriminate|].
  apply (findBestMatch_threshold_one menuAliases "latte" menuItems 1).
  discriminate.
Defined.

Lemma findBestMatch_exact_witness :
  exists key it,
    In (key, it) menuItems /\
    In "capp" (key :: match menuAliases it with Some als => als | None => [] end) /\
    toLowerCase "CAPP" = toLowerCase "capp" /\
    defaultThreshold < 1 /\
    exists m,
      findBestMatch menuAliases "CAPP" menuItems defaultThreshold = Some m /\
      score m == 1.
Proof.
  eexists. eexists.
  assert (H1 : In (fst (hd ("", mkMenuItem "" "" 0 [] [] []) menuItems),
                   snd (hd ("", mkMenuItem "" "" 0 [] [] []) menuItems))
                  menuItems) by (left; reflexivity).
  split; [exact H1|]. split; [right; right; left; reflexivity|].
  split; [reflexivity|]. split; [reflexivity|].
  apply (findBestMatch_exact menuAliases "CAPP" menuItems defaultThreshold
           _ _ "capp" H1).
  - right. right. left. reflexivity.
  - reflexivity.
  - reflexivity.
Defined.

Lemma findBestMatch_empty_term_witness :
  messageParser.sizes <> [] /\ defaultThreshold < 0.9 /\
  exists m,
    findBestMatch noAliases "" messageParser.sizes defaultThreshold = Some m /\
    0.9 <= score m.
Proof.
  split; [discriminate|]. split; [reflexivity|].
  apply (findBestMatch_empty_term noAliases messageParser.sizes
           defaultThreshold); [discriminate|reflexivity].
Defined.

End MatcherWitnesses.

(** ** More on the order text splitter *)

Section SplitterMore.

Import JS Reference Invariants messageParser Coverage.

Lemma string_app_assoc (s t u : string) :
  ((s ++ t) ++ u = s ++ t ++ u)%string.
Proof. induction s as [|c s IH]; cbn; congruence. Qed.

Lemma string_app_nil_r (s : string) : (s ++ "" = s)%string.
Proof. induction s as [|c s IH]; cbn; congruence. Qed.

Ltac string_normalize :=
  repeat first [rewrite string_app_assoc | progress cbn [String.append]].

(** Two ways to cut one string at the same position agree. *)
Lemma string_app_same_length (p c x y : string) :
  (p ++ x = c ++ y)%string -> String.length p = String.length c ->
  p = c /\ x = y.
Proof.
  revert c. induction p as [|a p IH]; intros [|b c] H Hl;
    cbn in Hl; try discriminate.
  - now split.
  - cbn in H. injection H as -> H. destruct (IH c H) as [-> ->]; [lia|].
    now split.
Qed.

(** What a part of a string contains, the string contains. *)
Lemma includes_part (s t x pre post : string) :
  s = (pre ++ t ++ post)%string -> includes t x = true -> includes s x = true.
Proof.
  intros -> H. apply includes_iff in H. destruct H as (p & q & ->).
  apply includes_iff. exists (pre ++ p)%string, (q ++ post)%string.
  now rewrite !string_app_assoc.
Qed.

Lemma lacks_part (s t x pre post : string) :
  s = (pre ++ t ++ post)%string -> includes s x = false ->
  includes t x = false.
Proof.
  intros Hs H. destruct (includes t x) eqn:E; [|reflexivity].
  rewrite (includes_part s t x pre post Hs E) in H. discriminate.
Qed.

Lemma trimStart_part (s : string) :
  exists pre, s = (pre ++ trimStart s)%string.
Proof.
  induction s as [|c s [pre IH]]; cbn [trimStart]; [now exists ""|].
  destruct (isWhiteSpace c).
  - exists (String c pre). cbn. now rewrite <- IH.
  - now exists "".
Qed.

Lemma trimEnd_part (s : string) :
  exists post, s = (trimEnd s ++ post)%string.
Proof.
  induction s as [|c s [post IH]]; cbn [trimEnd]; [now exists ""|]. cbv zeta.
  destruct (isWhiteSpace c && (trimEnd s =? "")%string).
  - now exists (String c s).
  - exists post. cbn. now rewrite <- IH.
Qed.

(** A trimmed string is a part of the string it was trimmed from. *)
Lemma trim_part (s : string) :
  exists pre post, s = (pre ++ trim s ++ post)%string.
Proof.
  unfold trim. destruct (trimStart_part s) as [pre Hpre].
  destruct (trimEnd_part (trimStart s)) as [post Hpost].
  exists pre, post. now rewrite <- Hpost.
Qed.

(** Every piece of a split is a part of the text that was split. *)
Lemma split_go_parts (sep : string) (n : nat) :
  forall s cur, (String.length s <= n)%nat ->
    Forall (fun p => exists pre post, (cur ++ s = pre ++ p ++ post)%string)
           (split_go sep 0 cur s).
Proof.
  induction n as [|n IH]; intros s cur Hn.
  - destruct s; [|cbn in Hn; lia]. cbn. constructor; [|constructor].
    exists "", "". cbn. now rewrite !string_app_nil_r.
  - destruct s as [|c s].
    { cbn. constructor; [|constructor].
      exists "", "". cbn. now rewrite !string_app_nil_r. }
    cbn [split_go]. destruct (String.prefix sep (String c s)) eqn:Ep.
    + constructor; [now exists "", (String c s)|].
      apply prefix_iff in Ep. destruct Ep as [rest Hrest].
      destruct sep as [|d sep].
      { cbn [String.length Nat.sub]. cbn in Hrest. subst rest.
        eapply Forall_impl; [|apply (IH s ""); cbn in Hn; lia].
        intros p (pre & post & H). cbn in H.
        exists (cur ++ String c pre)%string, post.
        rewrite H. now string_normalize. }
      cbn in Hrest. injection Hrest as <- ->.
      replace (String.length (String c sep) - 1)%nat with (String.length sep)
        by (cbn [String.length]; lia).
      rewrite split_go_skip.
      eapply Forall_impl; [|apply (IH rest "")].
      * intros p (pre & post & H). cbn in H.
        exists (cur ++ String c sep ++ pre)%string, post.
        rewrite H. now string_normalize.
      * cbn in Hn. rewrite append_length in Hn. lia.
    + eapply Forall_impl; [|apply (IH s (cur ++ String c "")%string)].
      * intros p (pre & post & H). exists pre, post.
        rewrite <- H. now string_normalize.
      * cbn in Hn. lia.
Qed.

(** No piece of a split contains the separator. *)
Lemma split_go_lacks (sep : string) (n : nat) :
  sep <> "" ->
  forall s cur, (String.length s <= n)%nat ->
    (forall pre post, (cur ++ s = pre ++ sep ++ post)%string ->
                      (String.length cur <= String.length pre)%nat) ->
    Forall (fun p => includes p sep = false) (split_go sep 0 cur s).
Proof.
  intros Hsep.
  assert (Hlen : (1 <= String.length sep)%nat)
    by (destruct sep; [congruence|cbn; lia]).
  assert (Hcur : forall cur s,
            (forall pre post, (cur ++ s = pre ++ sep ++ post)%string ->
                              (String.length cur <= String.length pre)%nat) ->
            includes cur sep = false).
  { intros cur s J. destruct (includes cur sep) eqn:E; [|reflexivity].
    apply includes_iff in E. destruct E as (pre & post & E).
    specialize (J pre (post ++ s)%string).
    rewrite E, !string_app_assoc in J. specialize (J eq_refl).
    rewrite !append_length in J. lia. }
  induction n as [|n IH]; intros s cur Hn J.
  - destruct s; [|cbn in Hn; lia]. cbn. constructor; [|constructor].
    now apply (Hcur cur "").
  - destruct s as [|c s].
    { cbn. constructor; [|constructor]. now apply (Hcur cur ""). }
    cbn [split_go]. destruct (String.prefix sep (String c s)) eqn:Ep.
    + constructor; [now apply (Hcur cur (String c s))|].
      apply prefix_iff in Ep. destruct Ep as [rest Hrest].
      destruct sep as [|d sep]; [congruence|].
      cbn in Hrest. injection Hrest as <- ->.
      replace (String.length (String c sep) - 1)%nat with (String.length sep)
        by (cbn [String.length]; lia).
      rewrite split_go_skip. apply IH.
      * cbn in Hn. rewrite append_length in Hn. lia.
      * intros pre post _. cbn. lia.
    + apply IH; [cbn in Hn; lia|].
      intros pre post H. rewrite string_app_assoc in H. cbn in H.
      pose proof (J pre post H) as Hle.
      rewrite append_length. cbn [String.length].
      destruct (Nat.eq_dec (String.length pre) (String.length cur)) as [E|E];
        [|lia].
      exfalso. symmetry in H.
      destruct (string_app_same_length _ _ _ _ H E) as [_ Hs].
      assert (Hp : String.prefix sep (String c s) = true)
        by (apply prefix_iff; now exists post).
      congruence.
Qed.

Lemma split_lacks (s sep : string) :
  sep <> "" -> Forall (fun p => includes p sep = false) (split s sep).
Proof.
  intros Hsep. unfold split.
  apply (split_go_lacks sep (String.length s) Hsep); [lia|].
  intros pre post _. cbn. lia.
Qed.

Lemma split_parts (s sep : string) :
  Forall (fun p => exists pre post, (s = pre ++ p ++ post)%string)
         (split s sep).
Proof.
  unfold split. apply (split_go_parts sep (String.length s) s ""). lia.
Qed.

(** The items one round produces from a text: parts of the text. *)
Lemma splitBy_parts (separator : string) (texts : list string) (x : string) :
  Forall (fun t => includes t x = false) texts ->
  Forall (fun t => includes t x = false) (splitBy separator texts).
Proof.
  intros H. unfold splitBy. rewrite splitBy_flat_map. cbn [app].
  induction H as [|t ts Ht _ IH]; cbn [flat_map]; [constructor|].
  apply Forall_app. split; [|assumption].
  destruct (includes t separator); [|now constructor].
  pose proof (split_parts t separator) as Hp.
  induction Hp as [|p ps (pre & post & Hp) _ IHp]; cbn [map filter];
    [constructor|].
  destruct (nonEmpty (trim p)); [|assumption].
  constructor; [|assumption].
  destruct (trim_part p) as (pre' & post' & Hp').
  apply (lacks_part p (trim p) x pre' post' Hp').
  now apply (lacks_part t p x pre post Hp).
Qed.

(** After a round no item contains the separator of that round. *)
Lemma splitBy_lacks (separator : string) (texts : list string) :
  separator <> "" ->
  Forall (fun t => includes t separator = false) (splitBy separator texts).
Proof.
  intros Hsep. unfold splitBy. rewrite splitBy_flat_map. cbn [app].
  induction texts as [|t ts IH]; cbn [flat_map]; [constructor|].
  apply Forall_app. split; [|assumption].
  destruct (includes t separator) eqn:E; [|now constructor].
  pose proof (split_lacks t separator Hsep) as Hp.
  induction Hp as [|p ps Hp _ IHp]; cbn [map filter]; [constructor|].
  destruct (nonEmpty (trim p)); [|assumption].
  constructor; [|assumption].
  destruct (trim_part p) as (pre' & post' & Hp').
  now apply (lacks_part p (trim p) separator pre' post' Hp').
Qed.

(** X8. No item that [splitOrderItems] returns contains a comma, the word
    " and " between spaces, a semicolon or a plus sign: every separator is
    used up, whatever the text. *)
Theorem splitOrderItems_separator_free (text : string) :
  Forall (fun it => separatorFree it = true) (splitOrderItems text).
Proof.
  unfold splitOrderItems, separators. cbn [fold_left].
  set (r1 := splitBy "," [text]).
  set (r2 := splitBy " and " r1).
  set (r3 := splitBy ";" r2).
  assert (H1 : Forall (fun t => includes t "," = false) r1)
    by (apply splitBy_lacks; discriminate).
  assert (H2 : Forall (fun t => includes t " and " = false) r2)
    by (apply splitBy_lacks; discriminate).
  assert (H3 : Forall (fun t => includes t ";" = false) r3)
    by (apply splitBy_lacks; discriminate).
  assert (H4 : Forall (fun t => includes t "+" = false) (splitBy "+" r3))
    by (apply splitBy_lacks; discriminate).
  assert (H1' : Forall (fun t => includes t "," = false) (splitBy "+" r3))
    by (do 3 apply splitBy_parts; exact H1).
  assert (H2' : Forall (fun t => includes t " and " = false) (splitBy "+" r3))
    by (do 2 apply splitBy_parts; exact H2).
  assert (H3' : Forall (fun t => includes t ";" = false) (splitBy "+" r3))
    by (apply splitBy_parts; exact H3).
  rewrite Forall_forall in *. intros it Hit.
  unfold separatorFree, separators. cbn [existsb].
  now rewrite (H1' it Hit), (H2' it Hit), (H3' it Hit), (H4 it Hit).
Qed.

(** X9. When the text contains at least one separator, every item
    returned is non-empty and neither begins nor ends with white space. *)
Theorem splitOrderItems_trims (text : string) :
  existsb (includes text) separators = true ->
  Forall (fun it => trimmedNonEmpty it = true) (splitOrderItems text).
Proof. apply splitOrderItems_separated. Qed.

Lemma splitOrderItems_trims_witness :
  existsb (includes " 2 lattes ,1 cap and  ; ") separators = true /\
  Forall (fun it => trimmedNonEmpty it = true)
         (splitOrderItems " 2 lattes ,1 cap and  ; ").
Proof.
  split; [vm_compute; reflexivity|].
  apply (splitOrderItems_trims " 2 lattes ,1 cap and  ; ").
  vm_compute. reflexivity.
Defined.

(** X10. A text that contains no separator is returned as the only item,
    untouched: it is neither trimmed nor dropped when it is empty, so the
    result has exactly one element. *)
Theorem splitOrderItems_whole (text : string) :
  existsb (includes text) separators = false ->
  splitOrderItems text = [text].
Proof. apply splitOrderItems_unseparated. Qed.

Lemma splitOrderItems_whole_witness :
  existsb (includes "  1 latte ") separators = false /\
  splitOrderItems "  1 latte " = ["  1 latte "].
Proof.
  split; [vm_compute; reflexivity|].
  apply (splitOrderItems_whole "  1 latte ").
  vm_compute. reflexivity.
Defined.

End SplitterMore.

(** ** More on the item interpreter and the order parser *)

Section ParserMore.

Import JS Reference Invariants messageParser Coverage.

Lemma extractSize_some (words : list string) :
  exists r, extractSize words = Some r.
Proof.
  unfold extractSize. destruct (firstWordMatch words messageParser.sizes).
  - now eexists.
  - eexists. vm_compute. reflexivity.
Qed.

Lemma extractMilkType_some (lowerText : string) (words : list string) :
  exists r, extractMilkType lowerText words = Some r.
Proof.
  unfold extractMilkType. cbv zeta.
  assert (H : exists d, lookup "whole milk" milkTypes = Some d)
    by (eexists; vm_compute; reflexivity).
  destruct H as [d ->].
  destruct (firstContained lowerText milkTypes) as [r|].
  - destruct (fst r =? fst d)%string; [|now eexists].
    destruct (firstWordMatch words milkTypes); now eexists.
  - rewrite String.eqb_refl.
    destruct (firstWordMatch words milkTypes); now eexists.
Qed.

Lemma parseOrderItem_cases (text : string) :
  (exists it, parseOrderItem text = mkItemResult true (Some it) None) \/
  parseOrderItem text = itemFailure menuItemNotFound.
Proof.
  unfold parseOrderItem, parseOrderItemBody. cbv zeta.
  destruct (extractMenuItem _ _) as [mi|]; [|now right].
  destruct (extractSize_some (splitWhitespace (toLowerCase text))) as [sz ->].
  destruct (extractMilkType_some (toLowerCase text)
              (splitWhitespace (toLowerCase text))) as [mk ->].
  left. now eexists.
Qed.

(** X11. Interpreting an item text has two outcomes only: success with
    an item and no error, or the failure that says the menu item was not
    found; the generic failure of the [catch] block never occurs. *)
Theorem parseOrderItem_outcomes (text : string) :
  (exists it, parseOrderItem text = mkItemResult true (Some it) None) \/
  parseOrderItem text = itemFailure menuItemNotFound.
Proof. exact (parseOrderItem_cases text). Qed.

Lemma combinations_sound :
  forallb
    (fun mi =>
       forallb
         (fun sz => forallb (soundCombination mi sz) (map snd milkTypes))
         (map snd messageParser.sizes))
    (map snd menuItems) = true.
Proof. vm_compute. reflexivity. Qed.

(** X14. Interpreting an item ignores the case of the text. *)
Theorem parseOrderItem_ignores_case (text : string) :
  parseOrderItem (toLowerCase text) = parseOrderItem text.
Proof.
  unfold parseOrderItem, parseOrderItemBody. cbv zeta.
  now rewrite toLowerCase_idempotent.
Qed.

Lemma itemErrors_all_failed (ts : list string) :
  resolvedItems ts = [] ->
  itemErrors ts = repeat menuItemNotFound (List.length ts).
Proof.
  induction ts as [|t ts IH]; [reflexivity|].
  unfold resolvedItems, itemErrors in *. cbn [flat_map List.length repeat].
  unfold interpreted at 1. cbv zeta.
  destruct (parseOrderItem_cases t) as [[it ->] | ->];
    cbn [itemSuccess item itemError itemFailure app].
  - discriminate.
  - intros H. now rewrite IH.
Qed.

Lemma firstSome_found {A B : Type} (f : A -> option B) (xs : list A) (x : A) :
  In x xs -> f x <> None -> firstSome f xs <> None.
Proof.
  induction xs as [|y ys IH]; intros Hin Hx; [destruct Hin|].
  cbn [firstSome]. destruct (f y) eqn:Ey; [discriminate|].
  destruct Hin as [->|Hin]; [now rewrite Ey in Hx|now apply IH].
Qed.

(** X15. An item text that contains a key of the menu, whatever its case
    and wherever it stands, resolves. *)
Theorem parseOrderItem_contains_key (text : string) (key : string)
  (mi : MenuItem) :
  In (key, mi) menuItems ->
  includes (toLowerCase text) key = true ->
  exists it, parseOrderItem text = mkItemResult true (Some it) None.
Proof.
  intros Hin Hinc.
  destruct (parseOrderItem_cases text) as [H|H]; [exact H|exfalso].
  unfold parseOrderItem, parseOrderItemBody in H. cbv zeta in H.
  destruct (extractMenuItem _ _) as [m|] eqn:Em.
  - destruct (extractSize_some (splitWhitespace (toLowerCase text)))
      as [sz Esz].
    destruct (extractMilkType_some (toLowerCase text)
                (splitWhitespace (toLowerCase text))) as [mk Emk].
    rewrite Esz, Emk in H. discriminate.
  - unfold extractMenuItem in Em. cbv zeta in Em.
    destruct (firstSome _ (splitWhitespace (toLowerCase text)));
      [discriminate|].
    unfold firstContained in Em.
    destruct (firstSome _ menuItems) eqn:Ef; [discriminate|].
    revert Ef. apply (firstSome_found _ _ (key, mi) Hin).
    cbn [fst]. rewrite Hinc. discriminate.
Qed.

Lemma parseOrderItem_contains_key_witness :
  exists mi,
    In ("latte", mi) menuItems /\
    includes (toLowerCase "2 ICED-LATTES to go") "latte" = true /\
    exists it,
      parseOrderItem "2 ICED-LATTES to go" = mkItemResult true (Some it) None.
Proof.
  exists (mkMenuItem "lat1" "Latte" 4.00 standardSizes standardMilkOptions
            ["lat"; "cafe latte"; "coffee latte"]).
  assert (Hin : In ("latte",
                    mkMenuItem "lat1" "Latte" 4.00 standardSizes
                      standardMilkOptions ["lat"; "cafe latte"; "coffee latte"])
                  menuItems) by (right; left; reflexivity).
  assert (Hinc : includes (toLowerCase "2 ICED-LATTES to go") "latte" = true)
    by (vm_compute; reflexivity).
  split; [exact Hin|]. split; [exact Hinc|].
  exact (parseOrderItem_contains_key "2 ICED-LATTES to go" "latte" _ Hin Hinc).
Defined.

Lemma resolvedItems_resolved (ts : list string) :
  Forall resolved (resolvedItems ts).
Proof.
  induction ts as [|t ts IH]; [constructor|].
  unfold resolvedItems in *. cbn [flat_map]. apply Forall_app. split; [|exact IH].
  unfold interpreted. cbv zeta.
  destruct (parseOrderItem_cases t) as [[it E] | E]; rewrite E;
    cbn [itemSuccess item itemFailure].
  - constructor; [|constructor]. now exists t.
  - constructor.
Qed.

Lemma parseOrder_cases (text : string) :
  match splitOrderItems text with
  | [] => parseOrder text = orderFailure specifyAtLeastOne
  | ts =>
      match resolvedItems ts with
      | [] => parseOrder text = orderFailure (allNotFound (List.length ts))
      | its => parseOrder text = mkParsedOrder true (Some its) None
      end
  end.
Proof.
  unfold parseOrder. cbv zeta.
  destruct (splitOrderItems text) as [|t ts]; [reflexivity|].
  cbn [List.length Nat.eqb]. rewrite collect_fold. cbn [fst snd app].
  destruct (resolvedItems (t :: ts)) as [|it its] eqn:Er;
    cbn [List.length Nat.eqb]; [|reflexivity].
  rewrite (itemErrors_all_failed _ Er). cbn [List.length repeat Nat.ltb Nat.leb].
  reflexivity.
Qed.

(** X16. [parseOrder] has three outcomes.  Without a substring it asks to
    specify an item.  When no substring resolves it fails with "Failed to
    parse order: " followed by the item-not-found message once per
    substring, joined by "; ", and carries no items.  Otherwise it succeeds
    with the resolved items and carries no error.  The fallback "Failed to
    parse your order ..." is never returned. *)
Theorem parseOrder_outcomes (text : string) :
  match splitOrderItems text with
  | [] => parseOrder text = orderFailure specifyAtLeastOne
  | ts =>
      match resolvedItems ts with
      | [] => parseOrder text = orderFailure (allNotFound (List.length ts))
      | its => parseOrder text = mkParsedOrder true (Some its) None
      end
  end.
Proof. exact (parseOrder_cases text). Qed.

End ParserMore.

(** ** More on the order calculator *)

Section PricingMore.

Import JS Reference Invariants orderCalculator Coverage.

Lemma roundCurrency_le (x y : Q) :
  x <= y -> roundCurrency x <= roundCurrency y.
Proof.
  intros H. unfold roundCurrency, Math_round.
  assert (Hf : (Qfloor (x * 100 + (1 # 2)) <= Qfloor (y * 100 + (1 # 2)))%Z)
    by (apply Qfloor_resp_le; lra).
  assert (Hq : inject_Z (Qfloor (x * 100 + (1 # 2)))
               <= inject_Z (Qfloor (y * 100 + (1 # 2))))
    by order_of_integer.
  apply Qmult_le_compat_r; [exact Hq|]. vm_compute. discriminate.
Qed.

(** X18. [roundCurrency] and [calculateTax] are monotone: a larger amount
    never rounds to less, and a larger subtotal never bears less tax. *)
Theorem roundCurrency_monotone (x y : Q) :
  x <= y ->
  roundCurrency x <= roundCurrency y /\ calculateTax x <= calculateTax y.
Proof.
  intros H. split; [now apply roundCurrency_le|].
  unfold calculateTax, taxRate. apply roundCurrency_le.
  apply Qmult_le_compat_r; [exact H|]. vm_compute. discriminate.
Qed.

Lemma roundCurrency_monotone_witness :
  4.494 <= 4.495 /\
  roundCurrency 4.494 <= roundCurrency 4.495 /\
  calculateTax 4.494 <= calculateTax 4.495.
Proof.
  split; [vm_compute; discriminate|].
  apply (roundCurrency_monotone 4.494 4.495). vm_compute. discriminate.
Defined.

Lemma createOrder_amounts_aux (idClock readyClock : N) (its : list OrderItem)
  (customer : Customer) :
  let o := createOrder idClock readyClock its customer in
  centPrecise (subtotal o) /\ total o == subtotal o + tax o.
Proof.
  cbv zeta. unfold createOrder. cbn [subtotal tax total].
  assert (Hsub : centPrecise
            (fold_left (fun total it => roundCurrency (total + itemTotal it))
               its 0))
    by (apply subtotal_centPrecise; exists 0%Z; reflexivity).
  split; [exact Hsub|].
  apply centPrecise_sum; [exact Hsub|apply roundCurrency_centPrecise].
Qed.

(** X21. When no line total is negative, neither is the subtotal nor the
    tax, and the total is at least the subtotal. *)
Theorem createOrder_nonnegative (idClock readyClock : N)
  (its : list OrderItem) (customer : Customer) :
  Forall (fun it => 0 <= itemTotal it) its ->
  let o := createOrder idClock readyClock its customer in
  0 <= subtotal o /\ 0 <= tax o /\ subtotal o <= total o.
Proof.
  intros H. cbv zeta.
  destruct (createOrder_amounts_aux idClock readyClock its customer) as [Hc Ht].
  unfold createOrder in *. cbn [subtotal tax total] in *.
  destruct (subtotal_fold its 0 H) as [_ Hsub]; [lra|].
  set (sub := fold_left (fun total it => roundCurrency (total + itemTotal it))
                its 0) in *.
  assert (Htax : 0 <= calculateTax sub).
  { unfold calculateTax, taxRate. apply roundCurrency_nonneg.
    apply Qmult_le_0_compat; [assumption|lra]. }
  split; [exact Hsub|]. split; [exact Htax|]. rewrite Ht. lra.
Qed.

Lemma createOrder_nonnegative_witness :
  let its := resolvedItems ["2 medium lattes"; "0 small cappuccino"] in
  Forall (fun it => 0 <= itemTotal it) its /\
  let o := createOrder 1700000000123 1700000000124 its
             (mkCustomer "123456789" "Ann" None) in
  0 <= subtotal o /\ 0 <= tax o /\ subtotal o <= total o.
Proof.
  cbv zeta.
  assert (H : Forall (fun it => 0 <= itemTotal it)
                (resolvedItems ["2 medium lattes"; "0 small cappuccino"])).
  { vm_compute resolvedItems.
    constructor; [|constructor; [|constructor]]; vm_compute; discriminate. }
  split; [exact H|].
  exact (createOrder_nonnegative 1700000000123 1700000000124 _
           (mkCustomer "123456789" "Ann" None) H).
Defined.

End PricingMore.

(** ** More on the order identifiers *)

Section IdentifiersMore.

Import JS orderCalculator.

Lemma string_of_uint_digits (d : Decimal.uint) :
  forallb isDigit (list_ascii_of_string (NilEmpty.string_of_uint d)) = true.
Proof. induction d; cbn; auto. Qed.

Lemma substring_forallb (p : ascii -> bool) (s : string) (n m : nat) :
  forallb p (list_ascii_of_string s) = true ->
  forallb p (list_ascii_of_string (String.substring n m s)) = true.
Proof.
  revert n m. induction s as [|c s IH]; intros n m H.
  - destruct n, m; reflexivity.
  - cbn [list_ascii_of_string forallb] in H.
    apply andb_true_iff in H. destruct H as [Hc Hs].
    destruct n as [|n]; cbn [String.substring].
    + destruct m as [|m]; [reflexivity|].
      cbn [list_ascii_of_string forallb]. rewrite Hc. now apply IH.
    + now apply IH.
Qed.

Lemma timestamp_digits (now : N) :
  forallb isDigit (list_ascii_of_string (sliceLast 6 (toStringN now))) = true.
Proof. apply substring_forallb, string_of_uint_digits. Qed.

Lemma hyphen_split (t1 t2 c1 c2 : string) :
  forallb isDigit (list_ascii_of_string t1) = true ->
  forallb isDigit (list_ascii_of_string t2) = true ->
  (t1 ++ "-" ++ c1)%string = (t2 ++ "-" ++ c2)%string ->
  t1 = t2 /\ c1 = c2.
Proof.
  revert t2. induction t1 as [|a t1 IH]; intros [|b t2] H1 H2 E;
    cbn [String.append list_ascii_of_string forallb] in *.
  - injection E as E. now split.
  - injection E as Ea _. subst b.
    apply andb_true_iff in H2. destruct H2 as [H2 _]. discriminate.
  - injection E as Ea _. subst a.
    apply andb_true_iff in H1. destruct H1 as [H1 _]. discriminate.
  - injection E as Ea E. subst b.
    apply andb_true_iff in H1. apply andb_true_iff in H2.
    destruct (IH t2) as [-> ->]; [tauto|tauto|exact E|]. now split.
Qed.

(** X22. Two order identifiers are equal exactly when the last six digits
    of the two readings of the clock agree and the last three characters of
    the two customer ids agree: nothing else of the clock or of the customer
    enters the identifier. *)
Theorem generateOrderId_equal_iff (now1 now2 : N) (id1 id2 : string) :
  generateOrderId now1 id1 = generateOrderId now2 id2 <->
  sliceLast 6 (toStringN now1) = sliceLast 6 (toStringN now2) /\
  sliceLast 3 id1 = sliceLast 3 id2.
Proof.
  unfold generateOrderId. cbv zeta. split.
  - intros H. apply append_cancel_l in H.
    apply hyphen_split in H; [exact H| |]; apply timestamp_digits.
  - now intros [-> ->].
Qed.

End IdentifiersMore.



(** * The figures on doubles *)

(** ** Doubles that are exact

    The sum of two doubles whose values are [a * 2^e] and [b * 2^e], with
    [a + b] below 2^53, is the double of value [(a + b) * 2^e]: no
    rounding takes place.  The proof follows the specification of the
    addition, [SpecFloat.SFadd]. *)

Section Dyadic.

Import SpecFloat FloatOps Invariants.

Lemma iter_pos_iter {A : Type} (f : A -> A) (n : positive) (x : A) :
  iter_pos f n x = Pos.iter f x n.
Proof.
  revert x. induction n as [n IH|n IH|]; intros x; cbn [iter_pos Pos.iter].
  - now rewrite !IH, !Pos.iter_swap.
  - now rewrite !IH.
  - reflexivity.
Qed.

Lemma shiftl_Z (p : positive) (n : N) :
  Z.pos (Pos.shiftl p n) = (Z.pos p * 2 ^ Z.of_N n)%Z.
Proof.
  destruct n as [|k]; cbn [Pos.shiftl Z.of_N]; [lia|].
  rewrite (Pos.iter_swap_gen _ _ Z.pos xO (Z.mul 2)) by reflexivity.
  rewrite <- Z.shiftl_mul_pow2 by lia. reflexivity.
Qed.

Lemma shiftl_shiftl (p : positive) (n m : N) :
  Pos.shiftl (Pos.shiftl p n) m = Pos.shiftl p (n + m).
Proof.
  apply Pos2Z.inj. rewrite !shiftl_Z, N2Z.inj_add, Z.pow_add_r by lia. ring.
Qed.

(** The number of binary digits is one more than the binary logarithm. *)
Lemma digits_log2 (p : positive) :
  Z.pos (digits2_pos p) = (Z.log2 (Z.pos p) + 1)%Z.
Proof.
  assert (E : forall q, digits2_pos q = Pos.size q)
    by (induction q; cbn; congruence).
  rewrite E. destruct p; cbn [Z.log2 Pos.size]; lia.
Qed.

Lemma log2_shiftl (p : positive) (n : N) :
  Z.log2 (Z.pos (Pos.shiftl p n)) = (Z.log2 (Z.pos p) + Z.of_N n)%Z.
Proof. rewrite shiftl_Z, Z.log2_mul_pow2 by lia. lia. Qed.

(** Shifting right the bits that a shift to the left brought in loses
    nothing. *)
Lemma iter_shr_1 (q n : positive) :
  iter_pos shr_1 n (Build_shr_record (Z.pos (Pos.iter xO q n)) false false) =
  Build_shr_record (Z.pos q) false false.
Proof.
  rewrite iter_pos_iter. revert q.
  induction n as [|n IH] using Pos.peano_ind; intros q; [reflexivity|].
  rewrite Pos.iter_succ_r, Pos.iter_succ. cbn [shr_1 orb]. apply IH.
Qed.

(** Rounding a mantissa of 53 significant bits followed by zeros. *)
Lemma round_aux_exact (q : positive) (n : N) (e : Z) :
  Z.log2 (Z.pos q) = 52%Z ->
  (-1074 <= e + Z.of_N n <= 971)%Z ->
  binary_round_aux prec emax false (Z.pos (Pos.shiftl q n)) e loc_Exact =
  S754_finite false q (e + Z.of_N n).
Proof.
  intros Hq He. unfold binary_round_aux, shr_fexp, Zdigits2.
  rewrite digits_log2, log2_shiftl, Hq.
  unfold fexp, SpecFloat.emin, prec, emax. cbn [shr_record_of_loc].
  replace (Z.max (52 + Z.of_N n + 1 + e - 53) (3 - 1024 - 53) - e)%Z
    with (Z.of_N n) by lia.
  destruct n as [|k]; cbn [Z.of_N shr Pos.shiftl].
  - cbn [shr_m loc_of_shr_record round_nearest_even Zdigits2].
    rewrite digits_log2, Hq.
    replace (Z.max (52 + 1 + e - 53) (3 - 1024 - 53) - e)%Z with 0%Z by lia.
    cbn [shr shr_m]. rewrite Z.add_0_r.
    destruct (Z.leb_spec e (1024 - 53)); [reflexivity|cbn in He; lia].
  - rewrite iter_shr_1.
    cbn [shr_m loc_of_shr_record round_nearest_even Zdigits2].
    rewrite digits_log2, Hq.
    replace (Z.max (52 + 1 + (e + Z.pos k) - 53) (3 - 1024 - 53)
             - (e + Z.pos k))%Z with 0%Z by (cbn in He; lia).
    cbn [shr shr_m].
    destruct (Z.leb_spec (e + Z.pos k) (1024 - 53)); [reflexivity|cbn in He; lia].
Qed.

(** Normalising [c * 2^S] read at the exponent [e - S] gives the double
    of value [c * 2^e]. *)
Lemma normalize_exact (c : positive) (S : N) (e : Z) :
  (Z.log2 (Z.pos c) <= 52)%Z ->
  (52 - Z.log2 (Z.pos c) <= Z.of_N S)%Z ->
  (-1022 <= e <= 971)%Z ->
  binary_normalize prec emax (Z.pos (Pos.shiftl c S)) (e - Z.of_N S) false =
  canonical c e.
Proof.
  intros Hc HS He. unfold binary_normalize, binary_round.
  pose proof (Z.log2_nonneg (Z.pos c)) as Hl.
  pose proof (eq_refl : prec = 53%Z) as Hprec.
  pose proof (eq_refl : emax = 1024%Z) as Hemax.
  set (s := Z.to_N (52 - Z.log2 (Z.pos c))).
  assert (Hshape : Pos.shiftl c S = Pos.shiftl (Pos.shiftl c s) (S - s)).
  { rewrite shiftl_shiftl. f_equal. unfold s. lia. }
  assert (Hround :
    binary_round_aux prec emax false (Z.pos (Pos.shiftl c S)) (e - Z.of_N S)
      loc_Exact = canonical c e).
  { rewrite Hshape, round_aux_exact;
      [|rewrite log2_shiftl; unfold s; lia|unfold s; lia].
    unfold canonical. fold s. f_equal. unfold s. lia. }
  rewrite digits_log2, log2_shiftl. unfold fexp, SpecFloat.emin, shl_align.
  destruct (Z.max (Z.log2 (Z.pos c) + Z.of_N S + 1 + (e - Z.of_N S) - prec)
              (3 - emax - prec) - (e - Z.of_N S))%Z eqn:E;
    [exact Hround|exact Hround|lia].
Qed.

Lemma canonical_valid (p : positive) (e : Z) :
  (Z.log2 (Z.pos p) <= 52)%Z -> (-1022 <= e <= 971)%Z ->
  valid_binary prec emax (canonical p e) = true.
Proof.
  intros Hp He. pose proof (Z.log2_nonneg (Z.pos p)) as Hl.
  unfold canonical, valid_binary, bounded, canonical_mantissa. cbv zeta.
  rewrite digits_log2, log2_shiftl. unfold fexp, SpecFloat.emin, prec, emax.
  apply andb_true_intro. split; [apply Z.eqb_eq|apply Z.leb_le]; lia.
Qed.

Lemma shl_align_canonical (a : positive) (sa S : Z) (e : Z) :
  (0 <= sa <= S)%Z ->
  fst (shl_align (Pos.shiftl a (Z.to_N sa)) (e - sa) (e - S)) =
  Pos.shiftl a (Z.to_N S).
Proof.
  intros H. unfold shl_align.
  destruct (e - S - (e - sa))%Z as [|d|d] eqn:E; cbn [fst]; [|lia|].
  - f_equal. lia.
  - change (Pos.iter xO ?x d) with (Pos.shiftl x (N.pos d)).
    rewrite shiftl_shiftl. f_equal. lia.
Qed.

Lemma SFadd_canonical (a b : positive) (e : Z) :
  (Z.log2 (Z.pos (a + b)) <= 52)%Z -> (-1022 <= e <= 971)%Z ->
  SFadd prec emax (canonical a e) (canonical b e) = canonical (a + b) e.
Proof.
  intros Hc He.
  assert (Ha : (Z.log2 (Z.pos a) <= Z.log2 (Z.pos (a + b)))%Z)
    by (apply Z.log2_le_mono; lia).
  assert (Hb : (Z.log2 (Z.pos b) <= Z.log2 (Z.pos (a + b)))%Z)
    by (apply Z.log2_le_mono; lia).
  pose proof (Z.log2_nonneg (Z.pos a)). pose proof (Z.log2_nonneg (Z.pos b)).
  unfold canonical at 1 2. cbv zeta. unfold SFadd.
  set (sa := (52 - Z.log2 (Z.pos a))%Z). set (sb := (52 - Z.log2 (Z.pos b))%Z).
  replace (Z.min (e - sa) (e - sb)) with (e - Z.max sa sb)%Z by lia.
  rewrite !shl_align_canonical by lia. cbn [cond_Zopp].
  replace (Z.pos (Pos.shiftl a (Z.to_N (Z.max sa sb)))
           + Z.pos (Pos.shiftl b (Z.to_N (Z.max sa sb))))%Z
    with (Z.pos (Pos.shiftl (a + b) (Z.to_N (Z.max sa sb))))
    by (rewrite !shiftl_Z; lia).
  replace (e - Z.max sa sb)%Z with (e - Z.of_N (Z.to_N (Z.max sa sb)))%Z by lia.
  apply normalize_exact; lia.
Qed.

(** Half units add up without rounding, below 2^53 of them. *)
Lemma add_halfUnits (a b : Z) :
  (0 <= a)%Z -> (0 <= b)%Z -> (a + b < 2 ^ 53)%Z ->
  PrimFloat.add (halfUnits a) (halfUnits b) = halfUnits (a + b).
Proof.
  intros Ha Hb Hab. apply FloatAxioms.Prim2SF_inj.
  rewrite FloatAxioms.add_spec. unfold halfUnits.
  assert (Hlog : forall p, (Z.pos p < 2 ^ 53)%Z -> (Z.log2 (Z.pos p) <= 52)%Z).
  { intros p Hp. apply Z.lt_succ_r, Z.log2_lt_pow2; lia. }
  destruct a as [|a|a]; [|
    |lia].
  - rewrite (FloatAxioms.Prim2SF_SF2Prim (S754_zero false)) by reflexivity.
    destruct b as [|b|b]; [reflexivity| |lia].
    cbn [Z.add].
    rewrite FloatAxioms.Prim2SF_SF2Prim
      by (apply canonical_valid; [apply Hlog|]; lia).
    reflexivity.
  - destruct b as [|b|b]; [| |lia].
    + rewrite (FloatAxioms.Prim2SF_SF2Prim (S754_zero false)) by reflexivity.
      rewrite Z.add_0_r.
      rewrite FloatAxioms.Prim2SF_SF2Prim
        by (apply canonical_valid; [apply Hlog|]; lia).
      reflexivity.
    + assert (Hsum : (Z.log2 (Z.pos (a + b)) <= 52)%Z) by (apply Hlog; lia).
      cbn [Z.add].
      rewrite !FloatAxioms.Prim2SF_SF2Prim
        by (apply canonical_valid; [apply Hlog|]; lia).
      apply SFadd_canonical; [exact Hsum|lia].
Qed.

End Dyadic.

(** ** The amounts of the shipped menu on doubles *)

Section Tables.

Import JS Reference Invariants messageParser orderCalculator Coverage.

Lemma range_In (a n : nat) (z : Z) :
  (Z.of_nat a <= z < Z.of_nat (a + n))%Z -> In z (range a n).
Proof.
  intros H. unfold range. apply in_map_iff. exists (Z.to_nat z).
  split; [lia|]. apply in_seq. lia.
Qed.

(** Every subtotal from 0 to 999.50 in steps of a half unit. *)
Lemma halfUnit_table : forallb halfUnitExact (range 0 2000) = true.
Proof. vm_compute. reflexivity. Qed.

Lemma halfUnit_exact (h : Z) :
  (0 <= h <= 1999)%Z ->
  Binary64.ofHalves h = halfUnits h /\
  Binary64.cents (50 * h) = halfUnits h /\
  Binary64.roundCurrency (halfUnits h) = halfUnits h /\
  Binary64.calculateTax (halfUnits h) = Binary64.cents (taxCents h) /\
  Binary64.orderTotal (halfUnits h) = Binary64.cents (50 * h + taxCents h).
Proof.
  intros H. pose proof halfUnit_table as T. rewrite forallb_forall in T.
  assert (Hin : In h (range 0 2000)) by (apply range_In; lia).
  specialize (T h Hin). unfold halfUnitExact in T.
  rewrite !andb_true_iff, !FloatAxioms.Leibniz.eqb_spec in T. tauto.
Qed.

(** Every combination of menu item, size and milk. *)
Lemma unit_table :
  forallb
    (fun mi =>
       forallb (fun sz => forallb (unitExact mi sz) (map snd milkTypes))
         (map snd sizes))
    (map snd menuItems) = true.
Proof. vm_compute. reflexivity. Qed.

Lemma unit_exact (mi : MenuItem) (sz mk : Modifier) :
  In mi (map snd menuItems) -> In sz (map snd sizes) ->
  In mk (map snd milkTypes) ->
  unitPrice mi sz mk = halfUnits (unitHalves mi sz mk) /\
  (6 <= unitHalves mi sz mk <= 10)%Z.
Proof.
  intros Hmi Hsz Hmk. pose proof unit_table as T.
  rewrite forallb_forall in T. specialize (T mi Hmi).
  rewrite forallb_forall in T. specialize (T sz Hsz).
  rewrite forallb_forall in T. specialize (T mk Hmk).
  unfold unitExact in T.
  rewrite !andb_true_iff, FloatAxioms.Leibniz.eqb_spec, !Z.leb_le in T. tauto.
Qed.






End Tables.

(** ** The parser on doubles *)

Section DoublesParser.

Import JS Reference Invariants messageParser Coverage.

Lemma extractQuantity_number (lowerText : string) :
  Binary64.extractQuantity lowerText =
  Binary64.ofInteger (extractQuantity lowerText).
Proof.
  unfold Binary64.extractQuantity, extractQuantity, Binary64.parseInt.
  destruct (matchLeadingDigits lowerText); [reflexivity|].
  vm_compute. reflexivity.
Qed.

(** The item interpreter read exactly and the item interpreter on doubles
    fail together, or succeed together on the same menu item, size and
    milk. *)
Lemma parseOrderItem_both (text : string) :
  (parseOrderItem text = itemFailure menuItemNotFound /\
   Binary64.parseOrderItem text = Binary64.itemFailure menuItemNotFound) \/
  exists mi sz mk q,
    In mi (map snd menuItems) /\ In sz (map snd sizes) /\
    In mk (map snd milkTypes) /\ (0 <= q)%Z /\
    parseOrderItem text =
      mkItemResult true
        (Some (mkOrderItem mi q (name sz) (name mk)
                 ((basePrice mi + priceModifier sz + priceModifier mk)
                  * inject_Z q)))
        None /\
    Binary64.parseOrderItem text =
      Binary64.mkItemResult true
        (Some (Binary64.mkOrderItem mi (Binary64.ofInteger q) (name sz)
                 (name mk)
                 (PrimFloat.mul (unitPrice mi sz mk) (Binary64.ofInteger q))))
        None.
Proof.
  unfold parseOrderItem, parseOrderItemBody, Binary64.parseOrderItem,
    Binary64.parseOrderItemBody. cbv zeta.
  rewrite extractQuantity_number.
  destruct (extractMenuItem _ _) as [mi|] eqn:Emi; [|left; now split].
  destruct (extractSize_some (splitWhitespace (toLowerCase text)))
    as [sz Esz].
  destruct (extractMilkType_some (toLowerCase text)
              (splitWhitespace (toLowerCase text))) as [mk Emk].
  rewrite Esz, Emk. right.
  exists mi, (snd sz), (snd mk), (extractQuantity (toLowerCase text)).
  split; [now apply extractMenuItem_In in Emi|].
  split; [now apply extractSize_In in Esz|].
  split; [now apply extractMilkType_In in Emk|].
  split; [apply extractQuantity_nonneg|]. now split.
Qed.

Lemma parseOrderItem_cases_binary64 (text : string) :
  (exists it,
     Binary64.parseOrderItem text = Binary64.mkItemResult true (Some it) None) \/
  Binary64.parseOrderItem text = Binary64.itemFailure menuItemNotFound.
Proof.
  destruct (parseOrderItem_both text)
    as [[_ H]|(mi & sz & mk & q & _ & _ & _ & _ & _ & H)].
  - now right.
  - left. eexists. exact H.
Qed.

Lemma collect_fold_binary64 (itemTexts : list string)
  (acc : Binary64.collected) :
  fst (fold_left Binary64.collect itemTexts acc) =
  fst acc ++ Binary64.resolvedItems itemTexts /\
  (Binary64.resolvedItems itemTexts = [] ->
   snd (fold_left Binary64.collect itemTexts acc) =
   snd acc ++ repeat menuItemNotFound (List.length itemTexts)).
Proof.
  revert acc. induction itemTexts as [|t ts IH]; intro acc.
  - cbn. now rewrite !app_nil_r.
  - cbn [fold_left List.length repeat].
    unfold Binary64.resolvedItems in *. cbn [flat_map].
    destruct (IH (Binary64.collect acc t)) as [IH1 IH2].
    rewrite IH1. unfold Binary64.collect, Binary64.interpreted in *.
    cbv zeta in *.
    destruct (parseOrderItem_cases_binary64 t) as [[it E]|E]; rewrite E in *;
      cbn [Binary64.itemSuccess Binary64.item Binary64.itemError
           Binary64.itemFailure fst snd app] in *.
    + split; [now rewrite <- app_assoc|discriminate].
    + change (nonEmpty menuItemNotFound) with true in *. cbn [fst snd] in *.
      split; [reflexivity|]. intros H. rewrite (IH2 H).
      now rewrite <- app_assoc.
Qed.

(** The three outcomes of the order parser on doubles. *)
Lemma parseOrder_cases_binary64 (text : string) :
  match Binary64.resolvedItems (splitOrderItems text) with
  | [] => Binary64.success (Binary64.parseOrder text) = false
  | its =>
      Binary64.parseOrder text = Binary64.mkParsedOrder true (Some its) None
  end.
Proof.
  unfold Binary64.parseOrder. cbv zeta.
  destruct (splitOrderItems text) as [|t ts]; [reflexivity|].
  cbn [List.length Nat.eqb].
  destruct (collect_fold_binary64 (t :: ts) ([], [])) as [H _].
  destruct (fold_left Binary64.collect (t :: ts) ([], [])) as [orderItems errors].
  cbn [fst app] in H. subst orderItems.
  destruct (Binary64.resolvedItems (t :: ts)); reflexivity.
Qed.

End DoublesParser.

(** ** The order calculator on doubles *)

Section DoublesPricing.

Import JS Reference Invariants messageParser Coverage.

(** One addition of the running sum, on half units. *)
Lemma subtotal_step (a h : Z) :
  (0 <= a)%Z -> (0 <= h)%Z -> (a + h <= 1999)%Z ->
  Binary64.roundCurrency (PrimFloat.add (halfUnits a) (halfUnits h)) =
  halfUnits (a + h).
Proof.
  intros Ha Hh Hah. rewrite add_halfUnits by lia.
  apply halfUnit_exact. lia.
Qed.

Lemma subtotal_halves (its : list Binary64.OrderItem) (hs : list Z) (a : Z) :
  Forall2 (fun it h => (0 <= h)%Z /\ Binary64.itemTotal it = halfUnits h)
    its hs ->
  (0 <= a)%Z -> (a + fold_right Z.add 0%Z hs <= 1999)%Z ->
  fold_left
    (fun total it =>
       Binary64.roundCurrency (PrimFloat.add total (Binary64.itemTotal it)))
    its (halfUnits a) =
  halfUnits (a + fold_right Z.add 0%Z hs).
Proof.
  intros H. revert a.
  induction H as [|it h its hs [Hh Hit] Hall IH]; intros a Ha Hsum;
    cbn [fold_left fold_right] in *.
  - now rewrite Z.add_0_r.
  - assert (Hrest : (0 <= fold_right Z.add 0%Z hs)%Z).
    { clear -Hall. induction Hall as [|? ? ? ? [? _] _ IH]; cbn; lia. }
    rewrite Hit, subtotal_step by lia.
    rewrite IH by lia. f_equal. lia.
Qed.







(** X20. On doubles, when every line total is a whole number of half
    units and the line totals add up to 999.50 at most, the subtotal of
    [createOrder] is exactly their sum: neither the additions nor the
    rounding at each addition lose anything. *)
Theorem createOrder_subtotal_sum (idClock readyClock : N)
  (its : list Binary64.OrderItem) (halves : list Z) (customer : Customer) :
  Forall2
    (fun it h => (0 <= h)%Z /\ Binary64.itemTotal it = Binary64.ofHalves h)
    its halves ->
  (fold_right Z.add 0%Z halves <= 1999)%Z ->
  Binary64.subtotal (Binary64.createOrder idClock readyClock its customer) =
  Binary64.ofHalves (fold_right Z.add 0%Z halves).
Proof.
  intros Hall Hsum.
  assert (Hpos : (0 <= fold_right Z.add 0%Z halves)%Z).
  { clear -Hall. induction Hall as [|? ? ? ? [? _] _ IH]; cbn; lia. }
  assert (Hall' :
    Forall2 (fun it h => (0 <= h)%Z /\ Binary64.itemTotal it = halfUnits h)
      its halves).
  { clear Hpos. induction Hall as [|it h its hs [Hh Hit] Hall IH];
      constructor.
    - split; [exact Hh|]. rewrite Hit. apply halfUnit_exact.
      cbn [fold_right] in Hsum.
      assert (0 <= fold_right Z.add 0%Z hs)%Z
        by (clear -Hall; induction Hall as [|? ? ? ? [? _] _ IH]; cbn; lia).
      lia.
    - apply IH. cbn [fold_right] in Hsum. lia. }
  unfold Binary64.createOrder. cbn [Binary64.subtotal].
  change PrimFloat.zero with (halfUnits 0).
  rewrite (subtotal_halves its halves 0 Hall') by lia.
  cbn [Z.add]. symmetry. apply halfUnit_exact. lia.
Qed.

Lemma createOrder_subtotal_sum_witness :
  let its :=
    Binary64.resolvedItems ["2 medium lattes"; "0 lattes"; "1 small cappuccino"] in
  Forall2
    (fun it h => (0 <= h)%Z /\ Binary64.itemTotal it = Binary64.ofHalves h)
    its [16; 0; 6]%Z /\
  (fold_right Z.add 0%Z [16; 0; 6] <= 1999)%Z /\
  Binary64.subtotal
    (Binary64.createOrder 1700000000123 1700000000124 its
       (mkCustomer "123456789" "Ann" None)) =
  Binary64.ofHalves (fold_right Z.add 0%Z [16; 0; 6]%Z).
Proof.
  cbv zeta.
  assert (H : Forall2
                (fun it h =>
                   (0 <= h)%Z /\ Binary64.itemTotal it = Binary64.ofHalves h)
                (Binary64.resolvedItems
                   ["2 medium lattes"; "0 lattes"; "1 small cappuccino"])
                [16; 0; 6]%Z).
  { vm_compute Binary64.resolvedItems.
    constructor; [split; [lia|vm_compute; reflexivity]|].
    constructor; [split; [lia|vm_compute; reflexivity]|].
    constructor; [split; [lia|vm_compute; reflexivity]|]. constructor. }
  assert (Hsum : (fold_right Z.add 0%Z [16; 0; 6] <= 1999)%Z)
    by (vm_compute; discriminate).
  split; [exact H|]. split; [exact Hsum|].
  exact (createOrder_subtotal_sum 1700000000123 1700000000124 _ _
           (mkCustomer "123456789" "Ann" None) H Hsum).
Defined.

(** X13. An item the code resolves names an entry of the menu, its size
    and its milk are among the options that entry offers, and its line
    total is the product, on doubles, of a unit price between 3.00 and 5.00
    that is a whole number of half units and of its quantity. *)
Theorem resolved_wellformed (text : string) (it : Binary64.OrderItem) :
  Binary64.parseOrderItem text = Binary64.mkItemResult true (Some it) None ->
  In (Binary64.menuItem it) (map snd menuItems) /\
  In (Binary64.size it) (offeredSizes (Binary64.menuItem it)) /\
  In (Binary64.milkType it) (offeredMilks (Binary64.menuItem it)) /\
  exists k,
    (6 <= k <= 10)%Z /\
    Binary64.itemTotal it =
    PrimFloat.mul (Binary64.ofHalves k) (Binary64.quantity it).
Proof.
  intros H.
  destruct (parseOrderItem_both text)
    as [[_ E]|(mi & sz & mk & q & Hmi & Hsz & Hmk & Hq & _ & E)];
    rewrite E in H; [discriminate|].
  injection H as <-.
  cbn [Binary64.menuItem Binary64.size Binary64.milkType Binary64.itemTotal
       Binary64.quantity].
  pose proof combinations_sound as T.
  rewrite forallb_forall in T. specialize (T mi Hmi).
  rewrite forallb_forall in T. specialize (T sz Hsz).
  rewrite forallb_forall in T. specialize (T mk Hmk).
  unfold soundCombination in T. rewrite andb_true_iff, !existsb_exists in T.
  destruct T as [(s1 & Hs1 & E1) (s2 & Hs2 & E2)].
  apply String.eqb_eq in E1, E2. subst s1 s2.
  split; [exact Hmi|]. split; [exact Hs1|]. split; [exact Hs2|].
  destruct (unit_exact mi sz mk Hmi Hsz Hmk) as [Hunit Hk].
  exists (unitHalves mi sz mk). split; [exact Hk|].
  rewrite Hunit. f_equal. symmetry. apply halfUnit_exact. lia.
Qed.

Lemma resolved_wellformed_witness :
  exists it,
    Binary64.parseOrderItem "3 small caps with almond milk" =
      Binary64.mkItemResult true (Some it) None /\
    In (Binary64.menuItem it) (map snd menuItems) /\
    In (Binary64.size it) (offeredSizes (Binary64.menuItem it)) /\
    In (Binary64.milkType it) (offeredMilks (Binary64.menuItem it)) /\
    exists k,
      (6 <= k <= 10)%Z /\
      Binary64.itemTotal it =
      PrimFloat.mul (Binary64.ofHalves k) (Binary64.quantity it).
Proof.
  assert (H : exists it,
            Binary64.parseOrderItem "3 small caps with almond milk"
            = Binary64.mkItemResult true (Some it) None)
    by (eexists; vm_compute; reflexivity).
  destruct H as [it H]. exists it. split; [exact H|].
  exact (resolved_wellformed "3 small caps with almond milk" it H).
Defined.

End DoublesPricing.

(** ** The runs of the handler *)

Section HandlerRuns.

Import JS messageParser bot Coverage.

Variable delivered : nat -> bool.

(** The runs of the handler: what it attempts to send, call by call, and
    whether an error leaves it. *)
Lemma onText_cases (idClock readyClock : N) (ctx : Context) :
  onText delivered idClock readyClock ctx [] =
  if String.prefix "/" (text ctx) then (inr tt, [])
  else if negb (isPrivate (chatType ctx)) then (inr tt, [])
  else
    match from ctx with
    | None =>
        (if delivered 0%nat then inr tt else inl TransportError,
         [(SomethingWentWrongText, delivered 0%nat)])
    | Some f =>
        match Binary64.resolvedItems (splitOrderItems (text ctx)) with
        | [] =>
            if delivered 0%nat
            then (inr tt, [(DidNotUnderstandText, true)])
            else (if delivered 1%nat then inr tt else inl TransportError,
                  [(DidNotUnderstandText, false);
                   (SomethingWentWrongText, delivered 1%nat)])
        | its =>
            let confirmation :=
              OrderConfirmedText
                (Binary64.createOrder idClock readyClock its
                   (mkCustomer (toStringN (senderId f)) (first_name f)
                      (senderUsername f))) in
            if delivered 0%nat then (inr tt, [(confirmation, true)])
            else if delivered 1%nat
                 then (inr tt, [(confirmation, false);
                                (SomethingWentWrongText, true)])
                 else (if delivered 2%nat then inr tt else inl TransportError,
                       [(confirmation, false);
                        (SomethingWentWrongText, false);
                        (SomethingWentWrongText, delivered 2%nat)])
        end
    end.
Proof.
  unfold onText, tryCatch.
  destruct (String.prefix "/" (text ctx)); [reflexivity|].
  destruct (isPrivate (chatType ctx)); cbn [negb]; [|reflexivity].
  unfold bind, extractCustomer.
  destruct (from ctx) as [f|]; cbn [ret throw];
    [|unfold replyWithHTML; cbn [List.length app];
      now destruct (delivered 0%nat)].
  cbv zeta. pose proof (parseOrder_cases_binary64 (text ctx)) as H.
  destruct (Binary64.resolvedItems (splitOrderItems (text ctx))) as [|it its].
  - rewrite H. cbn [negb]. unfold replyWithHTML. cbn [List.length app].
    destruct (delivered 0%nat); [reflexivity|].
    cbn [List.length app]. now destruct (delivered 1%nat).
  - rewrite H. cbn [Binary64.success Binary64.parsedItems negb].
    unfold createOrder, tryCatch, bind, ret, replyWithHTML, orderConfirmation.
    cbn [List.length app].
    destruct (delivered 0%nat); [reflexivity|].
    cbn [errorMessage List.length app].
    destruct (delivered 1%nat); [reflexivity|].
    cbn [List.length app]. now destruct (delivered 2%nat).
Qed.

Lemma attempts_cases (idClock readyClock : N) (ctx : Context) :
  attempts delivered idClock readyClock ctx =
  if String.prefix "/" (text ctx) then []
  else if negb (isPrivate (chatType ctx)) then []
  else
    match from ctx with
    | None => [(SomethingWentWrongText, delivered 0%nat)]
    | Some f =>
        match Binary64.resolvedItems (splitOrderItems (text ctx)) with
        | [] =>
            (DidNotUnderstandText, delivered 0%nat)
            :: (if delivered 0%nat then []
                else [(SomethingWentWrongText, delivered 1%nat)])
        | its =>
            (OrderConfirmedText
               (Binary64.createOrder idClock readyClock its
                  (mkCustomer (toStringN (senderId f)) (first_name f)
                     (senderUsername f))),
             delivered 0%nat)
            :: (if delivered 0%nat then []
                else (SomethingWentWrongText, delivered 1%nat)
                     :: (if delivered 1%nat then []
                         else [(SomethingWentWrongText, delivered 2%nat)]))
        end
    end.
Proof.
  unfold attempts. rewrite onText_cases.
  destruct (String.prefix "/" (text ctx)); [reflexivity|].
  destruct (negb (isPrivate (chatType ctx))); [reflexivity|].
  destruct (from ctx) as [f|]; [|reflexivity].
  destruct (Binary64.resolvedItems (splitOrderItems (text ctx)));
    cbv zeta; destruct (delivered 0%nat); try reflexivity;
    destruct (delivered 1%nat); reflexivity.
Qed.

(** X23. Whatever the fate of its calls, the handler attempts nothing
    exactly when the text begins with "/" or the chat is not a private one;
    it makes three attempts at most, each attempt but the last was
    rejected, and so at most one of its calls resolves.  An error leaves
    the handler exactly when it made an attempt and all its attempts were
    rejected. *)
Theorem onText_silent_iff (idClock readyClock : N) (ctx : Context) :
  (attempts delivered idClock readyClock ctx = [] <->
   String.prefix "/" (text ctx) = true \/ chatType ctx <> private) /\
  (List.length (attempts delivered idClock readyClock ctx) <= 3)%nat /\
  Forall (fun a : Attempt => snd a = false)
    (removelast (attempts delivered idClock readyClock ctx)) /\
  (List.length (replies delivered idClock readyClock ctx) <= 1)%nat /\
  ((exists e, fst (onText delivered idClock readyClock ctx []) = inl e) <->
   attempts delivered idClock readyClock ctx <> [] /\
   replies delivered idClock readyClock ctx = []).
Proof.
  unfold replies, attempts. rewrite onText_cases.
  assert (Hne : forall (A : Type) (x : A) (l : list A) (P : Prop),
            (P -> False) -> (x :: l = [] <-> false = true \/ P)).
  { intros A x l P HP. split; [discriminate|]. intros [H|H]; [discriminate|].
    now contradiction HP. }
  assert (Hquiet : forall P : Prop,
            P ->
            (@nil Attempt = [] <-> P) /\
            (List.length (@nil Attempt) <= 3)%nat /\
            Forall (fun a : Attempt => snd a = false) (removelast []) /\
            (List.length (map fst (filter snd (@nil Attempt))) <= 1)%nat /\
            ((exists e, @inr BotError unit tt = inl e) <->
             @nil Attempt <> [] /\ map fst (filter snd (@nil Attempt)) = [])).
  { intros P HP. split; [tauto|]. cbn. split; [lia|]. split; [constructor|].
    split; [lia|]. split; [intros [e He]; discriminate|intros [H _]; now elim H]. }
  destruct (String.prefix "/" (text ctx)); cbn [fst snd];
    [apply Hquiet; now left|].
  destruct (chatType ctx); cbn [isPrivate negb fst snd];
    try (apply Hquiet; right; discriminate).
  assert (Hdone : forall (first : Attempt) (rest : list Attempt)
                         (r : BotError + unit),
            (r = inr tt /\
             (List.length (filter snd (first :: rest)) = 1)%nat \/
             (exists e, r = inl e) /\ filter snd (first :: rest) = []) ->
            (List.length rest <= 2)%nat ->
            Forall (fun a : Attempt => snd a = false)
              (removelast (first :: rest)) ->
            (first :: rest = [] <-> false = true \/ private <> private) /\
            (List.length (first :: rest) <= 3)%nat /\
            Forall (fun a : Attempt => snd a = false)
              (removelast (first :: rest)) /\
            (List.length (map fst (filter snd (first :: rest))) <= 1)%nat /\
            ((exists e, r = inl e) <->
             first :: rest <> [] /\
             map fst (filter snd (first :: rest)) = [])).
  { intros first rest r Hr Hlen Hall.
    split; [apply Hne; intros H; now apply H|].
    split; [cbn [List.length]; lia|]. split; [exact Hall|].
    rewrite length_map.
    destruct Hr as [[-> Hone]|[[e ->] Hnone]].
    - split; [lia|]. split; [intros [e He]; discriminate|].
      intros [_ H]. apply (f_equal (@List.length _)) in H.
      rewrite length_map in H. cbn [List.length] in H. lia.
    - rewrite Hnone. split; [cbn; lia|].
      split; [intros _; split; [discriminate|reflexivity]|].
      intros _. now exists e. }
  destruct (from ctx) as [f|].
  - destruct (Binary64.resolvedItems (splitOrderItems (text ctx)));
      cbv zeta;
      destruct (delivered 0%nat); try destruct (delivered 1%nat);
      try destruct (delivered 2%nat); cbn [fst snd];
      (apply Hdone;
       [first [left; split; reflexivity
              |right; split; [eexists; reflexivity|reflexivity]]
       |cbn; lia
       |cbn; repeat constructor]).
  - destruct (delivered 0%nat); cbn [fst snd];
      (apply Hdone;
       [first [left; split; reflexivity
              |right; split; [eexists; reflexivity|reflexivity]]
       |cbn; lia
       |cbn; repeat constructor]).
Qed.

(** X24. In a private chat, to a text that is not a command and that has
    a sender, the handler first attempts the confirmation of the order of
    the resolved items when at least one substring resolves, and the text
    "I didn't understand your order" when none does.  When that call
    resolves nothing else is sent; when it is rejected the handler goes on
    with "Something went wrong", once after a failed parse, and after a
    confirmation once more when that call is rejected as well. *)
Theorem onText_reply (idClock readyClock : N) (ctx : Context) (f : Sender) :
  String.prefix "/" (text ctx) = false ->
  chatType ctx = private ->
  from ctx = Some f ->
  attempts delivered idClock readyClock ctx =
  match Binary64.resolvedItems (splitOrderItems (text ctx)) with
  | [] =>
      (DidNotUnderstandText, delivered 0%nat)
      :: (if delivered 0%nat then []
          else [(SomethingWentWrongText, delivered 1%nat)])
  | its =>
      (OrderConfirmedText
         (Binary64.createOrder idClock readyClock its
            (mkCustomer (toStringN (senderId f)) (first_name f)
               (senderUsername f))),
       delivered 0%nat)
      :: (if delivered 0%nat then []
          else (SomethingWentWrongText, delivered 1%nat)
               :: (if delivered 1%nat then []
                   else [(SomethingWentWrongText, delivered 2%nat)]))
  end.
Proof.
  intros Hcmd Hchat Hfrom. rewrite attempts_cases, Hcmd, Hchat, Hfrom.
  reflexivity.
Qed.

(** X25. Whatever the fate of its calls, the handler never attempts the
    text of [errorMessage] that lists the available items, although every
    failed parse is a menu item that was not found; and when the message
    has a sender, "Something went wrong" is attempted only after the first
    call was rejected. *)
Theorem onText_never_lists_menu (idClock readyClock : N) (ctx : Context) :
  Forall (fun a : Attempt => listsMenu (fst a) = false)
    (attempts delivered idClock readyClock ctx) /\
  (In SomethingWentWrongText
     (map fst (attempts delivered idClock readyClock ctx)) ->
   from ctx = None \/ delivered 0%nat = false).
Proof.
  rewrite attempts_cases.
  destruct (String.prefix "/" (text ctx));
    [split; [constructor|intros []]|].
  destruct (negb (isPrivate (chatType ctx)));
    [split; [constructor|intros []]|].
  destruct (from ctx) as [f|]; [|split; [repeat constructor|now left]].
  destruct (Binary64.resolvedItems (splitOrderItems (text ctx)));
    destruct (delivered 0%nat); try destruct (delivered 1%nat);
    (split; [repeat constructor|]); cbn [map fst In];
    try (intros _; now right);
    intros [H|[]]; discriminate.
Qed.

(** X26. A confirmation is attempted only in a private chat, for a text
    that is not a command, as the first call of the run, and for an order
    of at least one item: the items are the substrings that resolve, in
    order, and the customer is the sender, whose id as a string becomes
    the customer id. *)
Theorem onText_confirmation (idClock readyClock : N) (ctx : Context)
  (o : Binary64.Order) (ok : bool) :
  In (OrderConfirmedText o, ok) (attempts delivered idClock readyClock ctx) ->
  String.prefix "/" (text ctx) = false /\
  chatType ctx = private /\
  (exists f,
     from ctx = Some f /\
     Binary64.customerId o = toStringN (senderId f) /\
     Binary64.customerName o = first_name f) /\
  Binary64.items o = Binary64.resolvedItems (splitOrderItems (text ctx)) /\
  Binary64.items o <> [] /\
  hd_error (attempts delivered idClock readyClock ctx)
  = Some (OrderConfirmedText o, ok).
Proof.
  rewrite attempts_cases.
  destruct (String.prefix "/" (text ctx)); [intros []|].
  destruct (chatType ctx); cbn [isPrivate negb]; try (intros []).
  destruct (from ctx) as [f|]; [|intros [H|[]]; discriminate].
  destruct (Binary64.resolvedItems (splitOrderItems (text ctx)))
    as [|it its] eqn:E.
  - destruct (delivered 0%nat); cbn [In];
      intros H; decompose [or] H; try discriminate; contradiction.
  - intros H.
    assert (H0 : (OrderConfirmedText
                    (Binary64.createOrder idClock readyClock (it :: its)
                       (mkCustomer (toStringN (senderId f)) (first_name f)
                          (senderUsername f))),
                  delivered 0%nat) = (OrderConfirmedText o, ok)).
    { destruct (delivered 0%nat); try destruct (delivered 1%nat); cbn [In] in H;
        decompose [or] H; try discriminate; try contradiction; assumption. }
    injection H0 as <- <-.
    split; [reflexivity|]. split; [reflexivity|].
    split; [exists f; now repeat split|].
    cbn [Binary64.items]. split; [reflexivity|]. split; [discriminate|].
    reflexivity.
Qed.

End HandlerRuns.

Section HandlerWitnesses.

Import JS messageParser bot Coverage.

(** The first call is rejected, the later ones resolve. *)
Lemma onText_reply_witness :
  let delivered := fun k : nat => (0 <? k)%nat in
  let f := mkSender 123456789 "Ann" None in
  let ctx := mkContext (Some f) private "1 espresso, 2 lattes" in
  String.prefix "/" (text ctx) = false /\
  chatType ctx = private /\
  from ctx = Some f /\
  attempts delivered 1700000000123 1700000000124 ctx =
  match Binary64.resolvedItems (splitOrderItems (text ctx)) with
  | [] =>
      (DidNotUnderstandText, delivered 0%nat)
      :: (if delivered 0%nat then []
          else [(SomethingWentWrongText, delivered 1%nat)])
  | its =>
      (OrderConfirmedText
         (Binary64.createOrder 1700000000123 1700000000124 its
            (mkCustomer (toStringN (senderId f)) (first_name f)
               (senderUsername f))),
       delivered 0%nat)
      :: (if delivered 0%nat then []
          else (SomethingWentWrongText, delivered 1%nat)
               :: (if delivered 1%nat then []
                   else [(SomethingWentWrongText, delivered 2%nat)]))
  end.
Proof.
  cbv zeta. split; [reflexivity|]. split; [reflexivity|].
  split; [reflexivity|].
  apply (onText_reply (fun k : nat => (0 <? k)%nat)
           1700000000123 1700000000124
           (mkContext (Some (mkSender 123456789 "Ann" None)) private
              "1 espresso, 2 lattes")
           (mkSender 123456789 "Ann" None)); reflexivity.
Defined.

Lemma onText_confirmation_witness :
  exists o,
    let delivered := fun _ : nat => true in
    let ctx := mkContext (Some (mkSender 123456789 "Ann" None)) private
                 "1 espresso, 2 lattes" in
    In (OrderConfirmedText o, true)
      (attempts delivered 1700000000123 1700000000124 ctx) /\
    String.prefix "/" (text ctx) = false /\
    chatType ctx = private /\
    (exists f,
       from ctx = Some f /\
       Binary64.customerId o = toStringN (senderId f) /\
       Binary64.customerName o = first_name f) /\
    Binary64.items o = Binary64.resolvedItems (splitOrderItems (text ctx)) /\
    Binary64.items o <> [] /\
    hd_error (attempts delivered 1700000000123 1700000000124 ctx)
    = Some (OrderConfirmedText o, true).
Proof.
  assert (H : exists o,
            attempts (fun _ : nat => true) 1700000000123 1700000000124
              (mkContext (Some (mkSender 123456789 "Ann" None)) private
                 "1 espresso, 2 lattes") = [(OrderConfirmedText o, true)])
    by (eexists; vm_compute; reflexivity).
  destruct H as [o H]. exists o. cbv zeta.
  assert (Hin : In (OrderConfirmedText o, true)
                  (attempts (fun _ : nat => true) 1700000000123 1700000000124
                     (mkContext (Some (mkSender 123456789 "Ann" None)) private
                        "1 espresso, 2 lattes")))
    by (rewrite H; now left).
  split; [exact Hin|].
  exact (onText_confirmation (fun _ : nat => true)
           1700000000123 1700000000124 _ o true Hin).
Defined.

End HandlerWitnesses.
